(** * Momentum Tasks: the todo store, its derived views and its persistence

    A shallow embedding of [src/todo-app/src/app/page.tsx]: the reducer
    [todoReducer] with its action vocabulary, the derived views of [Home]
    ([filteredTodos], [remainingCount]) and the two effects of [useTodos]
    that bridge the store to [window.localStorage].

    JavaScript strings are sequences of UTF-16 code units; they are modelled
    as [list N], one number per code unit.  A property that may be missing
    from an object ([dueDate?: string]) is an [option]. *)

From Stdlib Require Import NArith Ascii String.
From stdpp Require Import base option list numbers strings gmap.

Local Open Scope N_scope.
Local Open Scope nat_scope.

(** ** Strings *)

Abbreviation jsstring := (list N).

(** A literal of the source, code unit by code unit. *)
Definition str (s : string) : jsstring :=
  N_of_ascii <$> list_ascii_of_string s.

(** ** Data model *)

(** [type Todo] (lines 7-14). *)
Record Todo := mkTodo {
  id : jsstring;
  title : jsstring;
  notes : jsstring;
  dueDate : option jsstring;
  completed : bool;
  createdAt : jsstring;
}.

#[global] Instance Todo_eq_dec : EqDecision Todo.
Proof. solve_decision. Defined.

(** [Partial<Todo>]: every property of [Todo] may be missing.  A property
    that is present carries a value of the field's type; for [dueDate] that
    type includes [undefined], so [Some None] is the object
    [{ dueDate: undefined }], which [saveEdit] builds when the date input is
    cleared. *)
Record PartialTodo := mkPartial {
  p_id : option jsstring;
  p_title : option jsstring;
  p_notes : option jsstring;
  p_dueDate : option (option jsstring);
  p_completed : option bool;
  p_createdAt : option jsstring;
}.

(** The empty object [{}]. *)
Definition no_fields : PartialTodo :=
  mkPartial None None None None None None.

(** [type Action] (lines 16-22). *)
Inductive Action :=
  | hydrate (payload : list Todo)
  | add (payload : Todo)
  | toggle (payload_id : jsstring)
  | remove (payload_id : jsstring)
  | update (payload_id : jsstring) (data : PartialTodo)
  | clearCompleted.

(** ** The reducer *)

(** [{ ...todo, completed: !todo.completed }] *)
Definition flip_completed (todo : Todo) : Todo :=
  {| id := todo.(id); title := todo.(title); notes := todo.(notes);
     dueDate := todo.(dueDate); completed := negb todo.(completed);
     createdAt := todo.(createdAt) |}.

(** [{ ...todo, ...data }]: every own property of [data] overwrites the
    property of the same name. *)
Definition spread (todo : Todo) (data : PartialTodo) : Todo :=
  {| id := default todo.(id) data.(p_id);
     title := default todo.(title) data.(p_title);
     notes := default todo.(notes) data.(p_notes);
     dueDate := default todo.(dueDate) data.(p_dueDate);
     completed := default todo.(completed) data.(p_completed);
     createdAt := default todo.(createdAt) data.(p_createdAt) |}.

(** [todoReducer] (lines 26-51).  [Action] is a closed union, so the
    [default] branch of the [switch] has no counterpart. *)
Definition todoReducer (state : list Todo) (action : Action) : list Todo :=
  match action with
  | hydrate payload => payload
  | add payload => payload :: state
  | toggle i =>
      (λ todo, if decide (todo.(id) = i) then flip_completed todo else todo)
        <$> state
  | remove i => filter (λ todo, todo.(id) ≠ i) state
  | update i data =>
      (λ todo, if decide (todo.(id) = i) then spread todo data else todo)
        <$> state
  | clearCompleted => filter (λ todo, negb todo.(completed)) state
  end.

(** The ids of a state, in order. *)
Definition ids (state : list Todo) : list jsstring := id <$> state.

(** The state after a sequence of transitions, from the initial state [[]]
    of [useReducer(todoReducer, [])]. *)
Definition run (actions : list Action) : list Todo :=
  foldl todoReducer [] actions.

(** Whether a transition respects the discipline by which the callers keep
    ids unique: a hydrated collection has distinct ids, an added task has a
    fresh id, an update does not carry an [id]. *)
Definition keeps_ids_unique (state : list Todo) (action : Action) : bool :=
  match action with
  | hydrate payload => bool_decide (NoDup (ids payload))
  | add payload => bool_decide (payload.(id) ∉ ids state)
  | update _ data => bool_decide (data.(p_id) = None)
  | toggle _ | remove _ | clearCompleted => true
  end.

Fixpoint disciplined (state : list Todo) (actions : list Action) : bool :=
  match actions with
  | [] => true
  | a :: rest =>
      keeps_ids_unique state a && disciplined (todoReducer state a) rest
  end.

(** A task keeps its identity: same [id], same [createdAt]. *)
Definition same_identity (t t' : Todo) : Prop :=
  t'.(id) = t.(id) ∧ t'.(createdAt) = t.(createdAt).

(** Sample tasks. *)
Definition task (i : string) (done : bool) : Todo :=
  mkTodo (str i) (str "Buy milk") [] None done (str "2024-01-01T00:00:00.000Z").

(** What a transition does to one surviving task: the callbacks of the two
    [map] branches; the other branches hand tasks over as they are. *)
Definition touch (action : Action) (todo : Todo) : Todo :=
  match action with
  | toggle i => if decide (todo.(id) = i) then flip_completed todo else todo
  | update i data => if decide (todo.(id) = i) then spread todo data else todo
  | _ => todo
  end.

(** The tasks a transition addresses by id. *)
Definition targets (action : Action) (todo : Todo) : Prop :=
  match action with
  | toggle i | update i _ => todo.(id) = i
  | _ => False
  end.

(** How many tasks a transition puts in front of the existing ones. *)
Definition added (action : Action) : nat :=
  match action with add _ => 1 | _ => 0 end.

Definition is_hydrate (action : Action) : bool :=
  match action with hydrate _ => true | _ => false end.

(** Transitions that do not replace the tasks and, for an update, carry
    neither [id] nor [createdAt]: [toggleTodo], [removeTodo],
    [clearCompleted], [addTodo] and the update of [saveEdit], which carries
    [title], [notes] and [dueDate]. *)
Definition identity_safe (action : Action) : bool :=
  match action with
  | hydrate _ => false
  | update _ data =>
      bool_decide (data.(p_id) = None ∧ data.(p_createdAt) = None)
  | _ => true
  end.


(** ** Platform string operations *)

(** The code units [String.prototype.trim] strips: white space (TAB, VT,
    FF, SP, NBSP, ZWNBSP and the space separators) and line terminators
    (LF, CR, LS, PS). *)
Definition is_white_space (c : N) : bool :=
  ((9 <=? c) && (c <=? 13) || (c =? 32) || (c =? 160) || (c =? 5760)
   || (8192 <=? c) && (c <=? 8202) || (c =? 8232) || (c =? 8233)
   || (c =? 8239) || (c =? 8287) || (c =? 12288) || (c =? 65279))%N.

Fixpoint trimStart (s : jsstring) : jsstring :=
  match s with
  | c :: rest => if is_white_space c then trimStart rest else s
  | [] => []
  end.

Definition trimEnd (s : jsstring) : jsstring :=
  reverse (trimStart (reverse s)).

Definition trim (s : jsstring) : jsstring := trimEnd (trimStart s).

Fixpoint startsWith (s needle : jsstring) {struct needle} : bool :=
  match needle, s with
  | [], _ => true
  | n :: needle', c :: s' => (c =? n)%N && startsWith s' needle'
  | _ :: _, [] => false
  end.

(** [String.prototype.includes]: the needle occurs at some position. *)
Fixpoint includes (s needle : jsstring) : bool :=
  startsWith s needle ||
  match s with
  | [] => false
  | _ :: s' => includes s' needle
  end.

(** A case folding that handles the ASCII letters, where it agrees with
    [String.prototype.toLowerCase]; used for examples only. *)
Definition ascii_toLowerCase (s : jsstring) : jsstring :=
  (λ c, if (65 <=? c) && (c <=? 90) then c + 32 else c)%N <$> s.

(** [needle] occurs in [s] as a contiguous run of code units. *)
Definition substring_of (needle s : jsstring) : Prop :=
  ∃ before after, s = before ++ needle ++ after.

(** ** The intents of the presentation layer *)

(** [value || undefined]: the empty string and [undefined] are falsy. *)
Definition or_undefined (value : option jsstring) : option jsstring :=
  match value with
  | Some (_ :: _) => value
  | _ => None
  end.

(** [addTodo] (lines 76-93): the action it dispatches.  The id
    ([crypto.randomUUID()]) and the time ([new Date().toISOString()]) come
    from the platform and are parameters here. *)
Definition addTodo (uuid now : jsstring) (input_title input_notes : jsstring)
    (input_dueDate : option jsstring) : Action :=
  add (mkTodo uuid (trim input_title) (trim input_notes)
         (or_undefined input_dueDate) false now).

(** [handleSubmit] (lines 133-143): nothing is dispatched for a blank
    title. *)
Definition handleSubmit (uuid now : jsstring) (title notes : jsstring)
    (dueDate : option jsstring) : option Action :=
  match trim title with
  | [] => None
  | _ => Some (addTodo uuid now title notes dueDate)
  end.

(** [saveEdit] (lines 176-184): the update carries [title], [notes] and
    [dueDate], the last one possibly [undefined]. *)
Definition saveEdit (i : jsstring) (editTitle editNotes : jsstring)
    (editDueDate : option jsstring) : option Action :=
  match trim editTitle with
  | [] => None
  | _ =>
      Some (update i
              (mkPartial None (Some (trim editTitle)) (Some (trim editNotes))
                 (Some (or_undefined editDueDate)) None None))
  end.

(** ** Derived views of [Home] *)

Module Filter.
(** [type Filter] (line 5). *)
Inductive t := all | active | completed.

#[global] Instance eq_dec : EqDecision t.
Proof. solve_decision. Defined.
End Filter.

Section View.
(** [String.prototype.toLowerCase] is the platform's Unicode case
    mapping; the views are defined and verified for any such function. *)
Variable toLowerCase : jsstring → jsstring.

(** The callback of [todos.filter] in [filteredTodos] (lines 148-154). *)
Definition shown (fltr : Filter.t) (normalizedQuery : jsstring)
    (todo : Todo) : bool :=
  if bool_decide (fltr = Filter.active) && todo.(completed) then false
  else if bool_decide (fltr = Filter.completed) && negb todo.(completed)
  then false
  else
    match normalizedQuery with
    | [] => true
    | _ =>
        let haystack :=
          toLowerCase (todo.(title) ++ [32%N] ++ todo.(notes)) in
        includes haystack normalizedQuery
    end.

(** [filteredTodos] (lines 145-155). *)
Definition filteredTodos (todos : list Todo) (fltr : Filter.t)
    (query : jsstring) : list Todo :=
  let normalizedQuery := toLowerCase (trim query) in
  filter (λ todo, shown fltr normalizedQuery todo) todos.
End View.

(** [remainingCount] (lines 157-160). *)
Definition remainingCount (todos : list Todo) : nat :=
  length (filter (λ todo, negb todo.(completed)) todos).

(** The filter setting against the [completed] flag, in the words of the
    specification. *)
Definition passes (fltr : Filter.t) (todo : Todo) : Prop :=
  match fltr with
  | Filter.all => True
  | Filter.active => todo.(completed) = false
  | Filter.completed => todo.(completed) = true
  end.

(** The number of tasks with [completed = false], counted one by one. *)
Fixpoint count_open (todos : list Todo) : nat :=
  match todos with
  | [] => 0
  | todo :: rest =>
      (if todo.(completed) then 0 else 1) + count_open rest
  end.

(** A task titled [ab] with notes [cd]. *)
Definition task_ab_cd : Todo :=
  mkTodo (str "1") (str "ab") (str "cd") None false
    (str "2024-01-01T00:00:00.000Z").

(** ** JSON values and [JSON.stringify] *)

(** A JSON value.  A number is kept as its lexeme; an object keeps its
    members in the order of the text. *)
#[warnings="-register-all"]
Inductive json :=
  | JNull
  | JBool (b : bool)
  | JNumber (lexeme : jsstring)
  | JString (s : jsstring)
  | JArray (items : list json)
  | JObject (members : list (jsstring * json)).

(** One lowercase hexadecimal digit. *)
Definition hex_digit (d : N) : N :=
  (if d <? 10 then 48 + d else 87 + d)%N.

(** [UnicodeEscape]: a backslash, [u] and four hexadecimal digits. *)
Definition unicode_escape (c : N) : jsstring :=
  [92; 117; hex_digit (c / 4096); hex_digit (c / 256 mod 16);
   hex_digit (c / 16 mod 16); hex_digit (c mod 16)]%N.

Definition is_leading_surrogate (c : N) : bool :=
  ((55296 <=? c) && (c <=? 56319))%N.

Definition is_trailing_surrogate (c : N) : bool :=
  ((56320 <=? c) && (c <=? 57343))%N.

(** A surrogate code unit that is not half of a pair: a leading one not
    followed by a trailing one, or a trailing one not preceded by a leading
    one. *)
Definition lone_surrogate (prev : option N) (c : N) (next : option N)
    : bool :=
  is_leading_surrogate c
    && negb (from_option is_trailing_surrogate false next)
  || is_trailing_surrogate c
    && negb (from_option is_leading_surrogate false prev).

(** The text [QuoteJSONString] emits for one code unit. *)
Definition quote_unit (prev : option N) (c : N) (next : option N)
    : jsstring :=
  (if c =? 8 then [92; 98]
   else if c =? 9 then [92; 116]
   else if c =? 10 then [92; 110]
   else if c =? 12 then [92; 102]
   else if c =? 13 then [92; 114]
   else if c =? 34 then [92; 34]
   else if c =? 92 then [92; 92]
   else if (c <? 32) || lone_surrogate prev c next then unicode_escape c
   else [c])%N.

Fixpoint quote_units (prev : option N) (s : jsstring) : jsstring :=
  match s with
  | [] => []
  | c :: rest => quote_unit prev c (head rest) ++ quote_units (Some c) rest
  end.

Definition QuoteJSONString (s : jsstring) : jsstring :=
  [34%N] ++ quote_units None s ++ [34%N].

Fixpoint join_comma (parts : list jsstring) : jsstring :=
  match parts with
  | [] => []
  | [part] => part
  | part :: rest => part ++ [44%N] ++ join_comma rest
  end.

(** The text of a JSON value, without white space, as [JSON.stringify]
    writes it when no indentation is asked for. *)
Fixpoint serialize (v : json) : jsstring :=
  match v with
  | JNull => str "null"
  | JBool true => str "true"
  | JBool false => str "false"
  | JNumber lexeme => lexeme
  | JString s => QuoteJSONString s
  | JArray items => [91%N] ++ join_comma (serialize <$> items) ++ [93%N]
  | JObject members =>
      [123%N]
      ++ join_comma
           ((λ m, QuoteJSONString m.1 ++ [58%N] ++ serialize m.2) <$> members)
      ++ [125%N]
  end.

(** The members [JSON.stringify] serializes for a task: its own properties,
    a property whose value is [undefined] being left out.  A [Todo] records
    the values of the six properties and nothing of the object's layout, so
    the members are listed in the order of the literal in [addTodo] (lines
    80-87).  An object that was parsed from the storage lists its members
    in the order of the stored text and keeps members that [Todo] does not
    have; one that was parsed without [dueDate] and then updated lists
    [dueDate] last.  For such an object the text the page writes differs
    from this one in the order of the members and in further members, and
    in nothing that [as_todo], which reads members by key, looks at
    ([as_todo_by_key], [denotes_other_layout]).  Properties of the stored
    text are therefore stated through what it [denotes]. *)
Definition todo_value (todo : Todo) : json :=
  JObject
    ([(str "id", JString todo.(id)); (str "title", JString todo.(title));
      (str "notes", JString todo.(notes))]
     ++ match todo.(dueDate) with
        | Some date => [(str "dueDate", JString date)]
        | None => []
        end
     ++ [(str "completed", JBool todo.(completed));
         (str "createdAt", JString todo.(createdAt))]).

(** [JSON.stringify(state)] (line 73). *)
Definition JSON_stringify (state : list Todo) : jsstring :=
  serialize (JArray (todo_value <$> state)).

(** ** [JSON.parse] *)

(** The result of a parser that may run out of fuel. *)
Inductive outcome (A : Type) :=
  | Done (a : A) (rest : jsstring)
  | Malformed
  | OutOfFuel.
Arguments Done {A} a rest.
Arguments Malformed {A}.
Arguments OutOfFuel {A}.

Definition bind {A B} (o : outcome A) (k : A → jsstring → outcome B)
    : outcome B :=
  match o with
  | Done a rest => k a rest
  | Malformed => Malformed
  | OutOfFuel => OutOfFuel
  end.

Definition of_option {A} (o : option (A * jsstring)) : outcome A :=
  match o with
  | Some (a, rest) => Done a rest
  | None => Malformed
  end.

Notation "'let*' ( a , rest ) := o 'in' k" :=
  (bind o (λ a rest, k))
  (at level 10, a name, rest name, o at level 100, k at level 200).

(** JSON white space: TAB, LF, CR and SP. *)
Definition is_json_space (c : N) : bool :=
  ((c =? 9) || (c =? 10) || (c =? 13) || (c =? 32))%N.

Fixpoint skip_ws (s : jsstring) : jsstring :=
  match s with
  | c :: rest => if is_json_space c then skip_ws rest else s
  | [] => []
  end.

Definition hex_value (c : N) : option N :=
  (if (48 <=? c) && (c <=? 57) then Some (c - 48)
   else if (97 <=? c) && (c <=? 102) then Some (c - 87)
   else if (65 <=? c) && (c <=? 70) then Some (c - 55)
   else None)%N.

(** The code unit named by a one-letter escape. *)
Definition escape_value (c : N) : option N :=
  (if c =? 34 then Some 34
   else if c =? 92 then Some 92
   else if c =? 47 then Some 47
   else if c =? 98 then Some 8
   else if c =? 102 then Some 12
   else if c =? 110 then Some 10
   else if c =? 114 then Some 13
   else if c =? 116 then Some 9
   else None)%N.

(** The characters of a string literal, from after the opening quote up to
    and including the closing quote. *)
Fixpoint parse_chars (s : jsstring) : option (jsstring * jsstring) :=
  match s with
  | [] => None
  | c :: rest =>
      if (c =? 34)%N then Some ([], rest)
      else if (c =? 92)%N then
        match rest with
        | [] => None
        | e :: rest1 =>
            if (e =? 117)%N then
              match rest1 with
              | h1 :: h2 :: h3 :: h4 :: rest2 =>
                  d1 ← hex_value h1; d2 ← hex_value h2;
                  d3 ← hex_value h3; d4 ← hex_value h4;
                  '(chars, rest3) ← parse_chars rest2;
                  Some ((4096 * d1 + 256 * d2 + 16 * d3 + d4)%N :: chars,
                        rest3)
              | _ => None
              end
            else
              u ← escape_value e;
              '(chars, rest2) ← parse_chars rest1;
              Some (u :: chars, rest2)
        end
      else if (c <? 32)%N then None
      else
        '(chars, rest1) ← parse_chars rest;
        Some (c :: chars, rest1)
  end.

Definition is_digit (c : N) : bool := ((48 <=? c) && (c <=? 57))%N.

Fixpoint span_digits (s : jsstring) : jsstring * jsstring :=
  match s with
  | c :: rest =>
      if is_digit c
      then let '(digits, rest1) := span_digits rest in (c :: digits, rest1)
      else ([], s)
  | [] => ([], [])
  end.

(** One or more digits. *)
Definition parse_digits (s : jsstring) : option (jsstring * jsstring) :=
  match span_digits s with
  | ([], _) => None
  | found => Some found
  end.

(** The lexeme of a JSON number: an optional minus, an integer part without
    a leading zero, an optional fraction and an optional exponent. *)
Definition parse_number (s : jsstring) : option (jsstring * jsstring) :=
  let '(sign, s1) :=
    match s with
    | c :: rest => if (c =? 45)%N then ([c], rest) else ([], s)
    | [] => ([], s)
    end in
  '(int, s2) ←
    match s1 with
    | c :: rest =>
        if (c =? 48)%N then Some ([c], rest)
        else if is_digit c then parse_digits s1
        else None
    | [] => None
    end;
  '(frac, s3) ←
    match s2 with
    | c :: rest =>
        if (c =? 46)%N
        then '(digits, rest1) ← parse_digits rest; Some (c :: digits, rest1)
        else Some ([], s2)
    | [] => Some ([], s2)
    end;
  '(exp, s4) ←
    match s3 with
    | c :: rest =>
        if (c =? 101)%N || (c =? 69)%N then
          let '(esign, rest1) :=
            match rest with
            | d :: rest' =>
                if (d =? 43)%N || (d =? 45)%N then ([d], rest')
                else ([], rest)
            | [] => ([], rest)
            end in
          '(digits, rest2) ← parse_digits rest1;
          Some (c :: esign ++ digits, rest2)
        else Some ([], s3)
    | [] => Some ([], s3)
    end;
  Some (sign ++ int ++ frac ++ exp, s4).

(** A literal name at the head of the text. *)
Definition expect (word : jsstring) (v : json) (s : jsstring)
    : outcome json :=
  if startsWith s word then Done v (drop (length word) s) else Malformed.

(** A JSON value, then the elements of an array after [[] and the members
    of an object after [{].  Each call spends one unit of fuel. *)
Fixpoint parse_value (fuel : nat) (s : jsstring) : outcome json :=
  match fuel with
  | 0 => OutOfFuel
  | S fuel =>
      match skip_ws s with
      | [] => Malformed
      | c :: rest =>
          if (c =? 34)%N then
            let* (chars, rest1) := of_option (parse_chars rest) in
            Done (JString chars) rest1
          else if (c =? 91)%N then
            match skip_ws rest with
            | d :: rest1 =>
                if (d =? 93)%N then Done (JArray []) rest1
                else
                  let* (items, rest2) := parse_elements fuel rest in
                  Done (JArray items) rest2
            | [] => Malformed
            end
          else if (c =? 123)%N then
            match skip_ws rest with
            | d :: rest1 =>
                if (d =? 125)%N then Done (JObject []) rest1
                else
                  let* (members, rest2) := parse_members fuel rest in
                  Done (JObject members) rest2
            | [] => Malformed
            end
          else if (c =? 116)%N then expect (str "true") (JBool true) (c :: rest)
          else if (c =? 102)%N then
            expect (str "false") (JBool false) (c :: rest)
          else if (c =? 110)%N then expect (str "null") JNull (c :: rest)
          else
            let* (lexeme, rest1) := of_option (parse_number (c :: rest)) in
            Done (JNumber lexeme) rest1
      end
  end
with parse_elements (fuel : nat) (s : jsstring) : outcome (list json) :=
  match fuel with
  | 0 => OutOfFuel
  | S fuel =>
      let* (item, rest) := parse_value fuel s in
      match skip_ws rest with
      | c :: rest1 =>
          if (c =? 44)%N then
            let* (items, rest2) := parse_elements fuel rest1 in
            Done (item :: items) rest2
          else if (c =? 93)%N then Done [item] rest1
          else Malformed
      | [] => Malformed
      end
  end
with parse_members (fuel : nat) (s : jsstring)
    : outcome (list (jsstring * json)) :=
  match fuel with
  | 0 => OutOfFuel
  | S fuel =>
      match skip_ws s with
      | c :: rest =>
          if (c =? 34)%N then
            let* (key, rest1) := of_option (parse_chars rest) in
            match skip_ws rest1 with
            | d :: rest2 =>
                if (d =? 58)%N then
                  let* (value, rest3) := parse_value fuel rest2 in
                  match skip_ws rest3 with
                  | e :: rest4 =>
                      if (e =? 44)%N then
                        let* (members, rest5) := parse_members fuel rest4 in
                        Done ((key, value) :: members) rest5
                      else if (e =? 125)%N then Done [(key, value)] rest4
                      else Malformed
                  | [] => Malformed
                  end
                else Malformed
            | [] => Malformed
            end
          else Malformed
      | [] => Malformed
      end
  end.

(** Exceptions of the platform. *)
Inductive exn := SyntaxError | StorageError.

(** The completion of a call that may throw. *)
Inductive completion (A : Type) :=
  | Normal (a : A)
  | Throw (e : exn).
Arguments Normal {A} a.
Arguments Throw {A} e.

(** Fuel that no text exhausts: a call consumes a code unit at least every
    second time. *)
Definition fuel_for (text : jsstring) : nat := S (2 * length text).

(** [JSON.parse(text)]: one value, white space around it, nothing else. *)
Definition JSON_parse (text : jsstring) : completion json :=
  match parse_value (fuel_for text) text with
  | Done v rest =>
      match skip_ws rest with
      | [] => Normal v
      | _ :: _ => Throw SyntaxError
      end
  | Malformed | OutOfFuel => Throw SyntaxError
  end.

(** ** Reading a parsed value as [Todo[]] *)

(** The value of a property: of members with the same key, the last one
    counts. *)
Definition property (key : jsstring) (members : list (jsstring * json))
    : option json :=
  snd <$> last (filter (λ m, m.1 = key) members).

Definition as_string (v : json) : option jsstring :=
  match v with JString s => Some s | _ => None end.

Definition as_boolean (v : json) : option bool :=
  match v with JBool b => Some b | _ => None end.

(** The annotation [const parsed: Todo[] = JSON.parse(stored)] (line 61)
    asserts the type without a check.  The model follows the annotation: a
    parsed value is read as the tasks it denotes when it is an array of
    objects with the properties of [Todo] at their types (further
    properties are not looked at), and is outside the model ([None])
    otherwise. *)
Definition as_todo (v : json) : option Todo :=
  match v with
  | JObject members =>
      id ← property (str "id") members ≫= as_string;
      title ← property (str "title") members ≫= as_string;
      notes ← property (str "notes") members ≫= as_string;
      dueDate ←
        match property (str "dueDate") members with
        | None => Some None
        | Some (JString date) => Some (Some date)
        | Some _ => None
        end;
      completed ← property (str "completed") members ≫= as_boolean;
      createdAt ← property (str "createdAt") members ≫= as_string;
      Some (mkTodo id title notes dueDate completed createdAt)
  | _ => None
  end.

Definition as_todos (v : json) : option (list Todo) :=
  match v with
  | JArray items => mapM as_todo items
  | _ => None
  end.

(** ** Durable storage *)

(** [STORAGE_KEY] (line 24). *)
Definition STORAGE_KEY : jsstring := str "momentum-tasks".

(** [window.localStorage]: its items, and whether reading or writing it
    throws (storage disabled, quota exceeded). *)
Record Storage := mkStorage {
  items : gmap jsstring jsstring;
  getItem_throws : bool;
  setItem_throws : bool;
}.

Definition getItem (st : Storage) (key : jsstring)
    : completion (option jsstring) :=
  if st.(getItem_throws) then Throw StorageError
  else Normal (st.(items) !! key).

Definition setItem (st : Storage) (key value : jsstring)
    : completion Storage :=
  if st.(setItem_throws) then Throw StorageError
  else Normal (mkStorage (<[key := value]> st.(items))
                 st.(getItem_throws) st.(setItem_throws)).

(** ** The effects of [useTodos] *)

(** What the hook does that can be observed, in the order it happens. *)
Inductive Event :=
  | Dispatched (action : Action)
  | HydratedSet (value : bool)
  | ConsoleError (message : jsstring)
  | SetItem (key value : jsstring).

(** The body of an effect: the events it has issued and how it completed;
    [None] when a value has left the types of the source. *)
Definition Effect (A : Type) : Type := option (list Event * completion A).

Definition pure {A} (a : A) : Effect A := Some ([], Normal a).

Definition issue (e : Event) : Effect unit := Some ([e], Normal tt).

Definition lift {A} (c : completion A) : Effect A := Some ([], c).

Definition untyped {A} : Effect A := None.

(** Sequencing: the events of [m] precede those of [k]. *)
Definition after {B} (events : list Event) (m : Effect B) : Effect B :=
  '(events', c) ← m; Some (events ++ events', c).

Definition and_then {A B} (m : Effect A) (k : A → Effect B) : Effect B :=
  match m with
  | Some (events, Normal a) => after events (k a)
  | Some (events, Throw e) => Some (events, Throw e)
  | None => None
  end.

Notation "'do' x <- m ; k" := (and_then m (λ x, k))
  (at level 10, x name, m at level 100, k at level 200).

(** [try { body } catch (error) { handler }] *)
Definition try_catch {A} (body : Effect A) (handler : exn → Effect A)
    : Effect A :=
  match body with
  | Some (events, Throw e) => after events (handler e)
  | other => other
  end.

(** [try { body } finally { finalizer }]: the finalizer runs however the
    body completed, and the body's completion stands unless the finalizer
    throws. *)
Definition try_finally {A} (body : Effect A) (finalizer : Effect unit)
    : Effect A :=
  '(events, c) ← body;
  '(events', c') ← finalizer;
  Some (events ++ events',
        match c' with
        | Normal _ => c
        | Throw e => Throw e
        end).

(** The hydration effect (lines 57-69). *)
Definition hydration_effect (st : Storage) : Effect unit :=
  try_finally
    (try_catch
       (do stored <- lift (getItem st STORAGE_KEY);
        match stored with
        | Some ((_ :: _) as text) =>
            do value <- lift (JSON_parse text);
            match as_todos value with
            | Some parsed => issue (Dispatched (hydrate parsed))
            | None => untyped
            end
        | Some [] | None => pure tt
        end)
       (λ error, issue (ConsoleError (str "Failed to load stored todos"))))
    (issue (HydratedSet true)).

(** The component: the two hook states, the storage it talks to, what it
    has done so far (oldest first) and whether an exception escaped one of
    its effects. *)
Record World := mkWorld {
  state : list Todo;
  hydrated : bool;
  storage : Storage;
  trace : list Event;
  crashed : bool;
}.

Definition record (e : Event) (w : World) : World :=
  mkWorld w.(state) w.(hydrated) w.(storage) (w.(trace) ++ [e]) w.(crashed).

(** A queued update takes effect. *)
Definition apply_event (w : World) (e : Event) : World :=
  match e with
  | Dispatched action =>
      record e (mkWorld (todoReducer w.(state) action) w.(hydrated)
                  w.(storage) w.(trace) w.(crashed))
  | HydratedSet value =>
      record e (mkWorld w.(state) value w.(storage) w.(trace) w.(crashed))
  | ConsoleError _ | SetItem _ _ => record e w
  end.

(** The write-back effect (lines 71-74), run with the state and the latch
    of the render it belongs to. *)
Definition writeback_effect (w : World) : World :=
  if negb w.(hydrated) then w
  else
    let value := JSON_stringify w.(state) in
    let w := record (SetItem STORAGE_KEY value) w in
    match setItem w.(storage) STORAGE_KEY value with
    | Normal st => mkWorld w.(state) w.(hydrated) st w.(trace) w.(crashed)
    | Throw _ => mkWorld w.(state) w.(hydrated) w.(storage) w.(trace) true
    end.

(** The first render and what follows from it: both effects run after the
    first commit, in the order of the source and with the values of the
    first render ([[]] and [false]); the updates the hydration effect has
    queued are then applied, and the write-back effect runs again because
    [hydrated] has changed. *)
Definition mount (st : Storage) : option World :=
  let first := mkWorld [] false st [] false in
  '(events, c) ← hydration_effect st;
  let first := writeback_effect first in
  let second := foldl apply_event first events in
  Some match c with
       | Normal _ => writeback_effect second
       | Throw _ =>
           mkWorld second.(state) second.(hydrated) second.(storage)
             second.(trace) true
       end.

(** An intent of the presentation layer: the reducer runs, the component
    renders with the new state, a new array, and the write-back effect runs
    because [state] has changed. *)
Definition dispatch (w : World) (action : Action) : World :=
  if w.(crashed) then w
  else writeback_effect (apply_event w (Dispatched action)).

(** A session: startup, then the intents in order. *)
Definition session (st : Storage) (actions : list Action) : option World :=
  w ← mount st; Some (foldl dispatch w actions).

(** A storage whose slot holds [text]. *)
Definition storage_holding (text : jsstring) : Storage :=
  mkStorage {[ STORAGE_KEY := text ]} false false.

(** [v] is read back from its own text, whatever follows, by any call
    with at least [depth] units of fuel. *)
Definition reparses (depth : nat) (v : json) : Prop :=
  ∀ fuel tail, depth ≤ fuel →
    parse_value fuel (serialize v ++ tail) = Done v tail.

(** The text of one member of an object. *)
Definition member_text (m : jsstring * json) : jsstring :=
  QuoteJSONString m.1 ++ [58%N] ++ serialize m.2.

(** The members of an object. *)
Definition members_of (v : json) : list (jsstring * json) :=
  match v with
  | JObject members => members
  | _ => []
  end.

(** Two sample tasks, one with a due date and text that needs escaping. *)
Definition task_plain : Todo :=
  mkTodo (str "a") (str "Buy milk") [] None false
    (str "2024-01-01T00:00:00.000Z").

Definition task_dated : Todo :=
  mkTodo (str "b") [34; 92; 10; 7; 55357; 56832; 56832; 233]%N
    (str "two lines") (Some (str "2024-01-02")) true
    (str "2024-01-01T00:00:01.000Z").

(** Every write in a trace comes after the latch was set, and goes to the
    one storage key. *)
Definition guarded (events : list Event) : Prop :=
  ∀ before key value later,
    events = before ++ SetItem key value :: later →
    HydratedSet true ∈ before ∧ key = STORAGE_KEY.

Definition is_write (e : Event) : bool :=
  match e with SetItem _ _ => true | _ => false end.

(** What holds of the component at every moment of a session. *)
Record consistent (w : World) : Prop := {
  consistent_guarded : guarded w.(trace);
  consistent_latch : w.(hydrated) = true → HydratedSet true ∈ w.(trace);
}.

(** The storage slot holds the serialized current state. *)
Definition mirrored (w : World) : Prop :=
  w.(storage).(items) !! STORAGE_KEY = Some (JSON_stringify w.(state)).

(** [text] denotes [state]: it is a JSON text, and the value parsed from it
    is read, member by member, as the tasks of [state] in their order.
    This is what the next startup loads from a slot that holds [text]. *)
Definition denotes (text : jsstring) (state : list Todo) : Prop :=
  ∃ value, JSON_parse text = Normal value ∧ as_todos value = Some state.

(** [text] is the JSON text of [v]: some amount of fuel reads [v] from it
    and leaves white space only. *)
Definition json_text_of (v : json) (text : jsstring) : Prop :=
  ∃ fuel rest, parse_value fuel text = Done v rest ∧ skip_ws rest = [].

(** ** The form state of [Home] and the intents of the user *)

Module Home.
(** The state hooks of [Home] (lines 123-131). *)
Record t := mk {
  title : jsstring;
  notes : jsstring;
  dueDate : option jsstring;
  filter : Filter.t;
  query : jsstring;
  editingId : option jsstring;
  editTitle : jsstring;
  editNotes : jsstring;
  editDueDate : option jsstring;
}.

(** The initial values of the hooks. *)
Definition initial : t := mk [] [] None Filter.all [] None [] [] None.

(** The form after [handleSubmit] (lines 133-143): untouched for a blank
    title, else with the three inputs of the new task reset. *)
Definition submitted (f : t) : t :=
  match trim f.(title) with
  | [] => f
  | _ =>
      mk [] [] None f.(filter) f.(query) f.(editingId) f.(editTitle)
        f.(editNotes) f.(editDueDate)
  end.

(** [beginEdit] (lines 162-167). *)
Definition beginEdit (f : t) (todo : Todo) : t :=
  let 'mkTodo todo_id todo_title todo_notes todo_dueDate _ _ := todo in
  mk f.(title) f.(notes) f.(dueDate) f.(filter) f.(query) (Some todo_id)
    todo_title todo_notes todo_dueDate.

(** [cancelEdit] (lines 169-174). *)
Definition cancelEdit (f : t) : t :=
  mk f.(title) f.(notes) f.(dueDate) f.(filter) f.(query) None [] [] None.

(** The form after [saveEdit] (lines 176-184): untouched for a blank
    title, else as after [cancelEdit]. *)
Definition saved (f : t) : t :=
  match trim f.(editTitle) with
  | [] => f
  | _ => cancelEdit f
  end.
End Home.

(** What the user can do, with the argument each handler receives.  A
    submission comes with the id and the time the platform will hand to
    [addTodo]. *)
Inductive Intent :=
  | TypeTitle (value : jsstring)
  | TypeNotes (value : jsstring)
  | PickDueDate (value : jsstring)
  | PickFilter (option : Filter.t)
  | TypeQuery (value : jsstring)
  | SubmitForm (uuid now : jsstring)
  | ClickToggle (todo_id : jsstring)
  | ClickDelete (todo_id : jsstring)
  | ClickClearCompleted
  | ClickEdit (todo : Todo)
  | TypeEditTitle (value : jsstring)
  | TypeEditNotes (value : jsstring)
  | PickEditDueDate (value : jsstring)
  | ClickSave (todo_id : jsstring)
  | ClickCancel.

(** The action a handler dispatches, if any. *)
Definition intent_action (f : Home.t) (intent : Intent) : option Action :=
  match intent with
  | SubmitForm uuid now =>
      handleSubmit uuid now f.(Home.title) f.(Home.notes) f.(Home.dueDate)
  | ClickToggle i => Some (toggle i)
  | ClickDelete i => Some (remove i)
  | ClickClearCompleted => Some clearCompleted
  | ClickSave i =>
      saveEdit i f.(Home.editTitle) f.(Home.editNotes) f.(Home.editDueDate)
  | _ => None
  end.

(** The form state a handler leaves behind. *)
Definition intent_form (f : Home.t) (intent : Intent) : Home.t :=
  match intent with
  | TypeTitle value =>
      Home.mk value f.(Home.notes) f.(Home.dueDate) f.(Home.filter)
        f.(Home.query) f.(Home.editingId) f.(Home.editTitle)
        f.(Home.editNotes) f.(Home.editDueDate)
  | TypeNotes value =>
      Home.mk f.(Home.title) value f.(Home.dueDate) f.(Home.filter)
        f.(Home.query) f.(Home.editingId) f.(Home.editTitle)
        f.(Home.editNotes) f.(Home.editDueDate)
  | PickDueDate value =>
      Home.mk f.(Home.title) f.(Home.notes) (or_undefined (Some value))
        f.(Home.filter) f.(Home.query) f.(Home.editingId)
        f.(Home.editTitle) f.(Home.editNotes) f.(Home.editDueDate)
  | PickFilter option =>
      Home.mk f.(Home.title) f.(Home.notes) f.(Home.dueDate) option
        f.(Home.query) f.(Home.editingId) f.(Home.editTitle)
        f.(Home.editNotes) f.(Home.editDueDate)
  | TypeQuery value =>
      Home.mk f.(Home.title) f.(Home.notes) f.(Home.dueDate)
        f.(Home.filter) value f.(Home.editingId) f.(Home.editTitle)
        f.(Home.editNotes) f.(Home.editDueDate)
  | SubmitForm _ _ => Home.submitted f
  | ClickToggle _ | ClickDelete _ | ClickClearCompleted => f
  | ClickEdit todo => Home.beginEdit f todo
  | TypeEditTitle value =>
      Home.mk f.(Home.title) f.(Home.notes) f.(Home.dueDate)
        f.(Home.filter) f.(Home.query) f.(Home.editingId) value
        f.(Home.editNotes) f.(Home.editDueDate)
  | TypeEditNotes value =>
      Home.mk f.(Home.title) f.(Home.notes) f.(Home.dueDate)
        f.(Home.filter) f.(Home.query) f.(Home.editingId)
        f.(Home.editTitle) value f.(Home.editDueDate)
  | PickEditDueDate value =>
      Home.mk f.(Home.title) f.(Home.notes) f.(Home.dueDate)
        f.(Home.filter) f.(Home.query) f.(Home.editingId)
        f.(Home.editTitle) f.(Home.editNotes) (or_undefined (Some value))
  | ClickSave _ => Home.saved f
  | ClickCancel => Home.cancelEdit f
  end.

(** The page: the form and the component behind it. *)
Record App := mkApp {
  form : Home.t;
  world : World;
}.

(** One intent: the handler dispatches its action, if it has one, and
    sets the form state.  A page whose component has crashed is gone and
    takes no intent. *)
Definition perform (app : App) (intent : Intent) : App :=
  if app.(world).(crashed) then app
  else
    mkApp (intent_form app.(form) intent)
      match intent_action app.(form) intent with
      | Some action => dispatch app.(world) action
      | None => app.(world)
      end.

(** ** Notions used to state properties *)

(** A text without white space at either end. *)
Definition starts_clean (s : jsstring) : Prop :=
  match s with
  | c :: _ => is_white_space c = false
  | [] => True
  end.

Definition trimmed (s : jsstring) : Prop :=
  starts_clean s ∧ starts_clean (reverse s).

(** A task as the forms produce it: a title that is trimmed and not empty,
    trimmed notes, a due date that is absent or not empty. *)
Definition well_formed (todo : Todo) : Prop :=
  todo.(title) ≠ [] ∧ trimmed todo.(title) ∧ trimmed todo.(notes)
  ∧ todo.(dueDate) ≠ Some [].

(** [{ ...first, ...second }] on partial field sets. *)
Definition merge (first second : PartialTodo) : PartialTodo :=
  let later {A} (x y : option A) : option A :=
    match y with Some _ => y | None => x end in
  mkPartial (later first.(p_id) second.(p_id))
    (later first.(p_title) second.(p_title))
    (later first.(p_notes) second.(p_notes))
    (later first.(p_dueDate) second.(p_dueDate))
    (later first.(p_completed) second.(p_completed))
    (later first.(p_createdAt) second.(p_createdAt)).

(** The number of [setItem] calls in a trace. *)
Definition writes (events : list Event) : nat :=
  length (filter (λ e, is_write e) events).

Definition is_console_error (e : Event) : bool :=
  match e with ConsoleError _ => true | _ => false end.

(** A stored text that [JSON.parse] is asked to read and rejects. *)
Definition unreadable (st : Storage) : Prop :=
  ∃ text, text ≠ [] ∧ st.(items) !! STORAGE_KEY = Some text
          ∧ JSON_parse text = Throw SyntaxError.

(** A page to try things on: two tasks, the latch set, an empty storage
    that works. *)
Definition sample_world : World :=
  mkWorld [task_plain; task_dated] true (mkStorage ∅ false false) [] false.

Definition sample_app : App := mkApp Home.initial sample_world.

(** The task a successful [saveEdit] makes of [todo]. *)
Definition edited (todo : Todo) (editTitle editNotes : jsstring)
    (editDueDate : option jsstring) : Todo :=
  mkTodo todo.(id) (trim editTitle) (trim editNotes)
    (or_undefined editDueDate) todo.(completed) todo.(createdAt).

(** * Properties of the store *)

Section Reducer.
Implicit Types (state : list Todo) (todo t : Todo) (i : jsstring)
  (data : PartialTodo) (action : Action).

Lemma flip_completed_involutive todo :
  flip_completed (flip_completed todo) = todo.
Proof. destruct todo as [? ? ? ? [] ?]; reflexivity. Qed.

Lemma spread_no_fields todo : spread todo no_fields = todo.
Proof. by destruct todo. Qed.

Lemma spread_identity todo data :
  data.(p_id) = None → data.(p_createdAt) = None →
  same_identity todo (spread todo data).
Proof. intros Hi Hc. split; simpl; [by rewrite Hi | by rewrite Hc]. Qed.

(** A [map] whose callback leaves every element as it is. *)
Lemma fmap_unmatched (f : Todo → Todo) i state :
  i ∉ ids state →
  (λ todo, if decide (todo.(id) = i) then f todo else todo) <$> state
  = state.
Proof.
  induction state as [|t state IH]; [done|].
  unfold ids; rewrite fmap_cons, not_elem_of_cons; intros [Hne Hnin].
  rewrite fmap_cons, decide_False by done. f_equal. by apply IH.
Qed.

Lemma filter_unmatched i state :
  i ∉ ids state → filter (λ todo, todo.(id) ≠ i) state = state.
Proof.
  induction state as [|t state IH]; [done|].
  unfold ids; rewrite fmap_cons, not_elem_of_cons; intros [Hne Hnin].
  rewrite filter_cons_True by done. by rewrite IH.
Qed.

Lemma ids_toggle state i : ids (todoReducer state (toggle i)) = ids state.
Proof.
  unfold ids; simpl. rewrite <- list_fmap_compose.
  apply list_fmap_ext; intros ? t _; simpl. by case_decide.
Qed.

Lemma ids_update state i data :
  data.(p_id) = None → ids (todoReducer state (update i data)) = ids state.
Proof.
  intros Hd. unfold ids; simpl. rewrite <- list_fmap_compose.
  apply list_fmap_ext; intros ? t _; simpl.
  case_decide; simpl; by rewrite ?Hd.
Qed.

Lemma ids_filter_sublist (P : Todo → Prop) `{!∀ t, Decision (P t)} state :
  ids (filter P state) `sublist_of` ids state.
Proof. unfold ids. apply fmap_sublist, sublist_filter. Qed.

(** One disciplined transition keeps the ids distinct. *)
Lemma step_NoDup state action :
  keeps_ids_unique state action →
  NoDup (ids state) → NoDup (ids (todoReducer state action)).
Proof.
  destruct action as [p|t|i|i|i d|]; intros Hk Hnd; simpl in Hk.
  - by apply bool_decide_unpack in Hk.
  - apply bool_decide_unpack in Hk. by apply NoDup_cons.
  - by rewrite (ids_toggle state i).
  - exact (sublist_NoDup _ _ Hnd (ids_filter_sublist _ state)).
  - apply bool_decide_unpack in Hk. by rewrite (ids_update state i d).
  - exact (sublist_NoDup _ _ Hnd (ids_filter_sublist _ state)).
Qed.

Lemma disciplined_take state actions k :
  disciplined state actions → disciplined state (take k actions).
Proof.
  revert state k; induction actions as [|a actions IH]; intros state [|k];
    simpl; try done.
  rewrite !andb_True. intros [? ?]; split; [done | by apply IH].
Qed.

Lemma disciplined_NoDup state actions :
  disciplined state actions → NoDup (ids state) →
  NoDup (ids (foldl todoReducer state actions)).
Proof.
  revert state; induction actions as [|a actions IH]; intros state; simpl;
    [done|].
  rewrite andb_True. intros [Hk Hd] Hnd.
  apply IH; [done | by apply step_NoDup].
Qed.
End Reducer.

(** C1, as stated, fails: the reducer prepends whatever task it is given,
    so adding the same task twice from the empty state leaves two tasks
    with one id. *)
Lemma ids_not_unique_after_double_add :
  ¬ NoDup (ids (run [add (task "a" false); add (task "a" false)])).
Proof.
  intros Hnd. apply NoDup_cons in Hnd as [Hnin _].
  apply Hnin. apply list_elem_of_here.
Qed.

(** C1 (amended): for every sequence of transitions applied from the empty
    state in which each hydrated collection has pairwise-distinct ids, each
    added task has an id absent from the state it is added to and no update
    carries an [id], the state has pairwise-distinct ids after every
    transition, that is after every prefix of the sequence. *)
Theorem ids_unique_after_every_transition (actions : list Action) (k : nat) :
  disciplined [] actions → NoDup (ids (run (take k actions))).
Proof.
  intros Hd. unfold run. apply disciplined_NoDup.
  - by apply disciplined_take.
  - apply NoDup_nil_2.
Qed.

Lemma ids_unique_after_every_transition_witness :
  NoDup (ids (run (take 2
    [add (task "a" false); add (task "b" false); toggle (str "a");
     update (str "b") no_fields; remove (str "a"); clearCompleted]))).
Proof.
  apply (ids_unique_after_every_transition
    [add (task "a" false); add (task "b" false); toggle (str "a");
     update (str "b") no_fields; remove (str "a"); clearCompleted] 2).
  vm_compute. exact I.
Defined.

Section Frame.
Implicit Types (state kept : list Todo) (todo t : Todo) (i : jsstring)
  (data : PartialTodo) (action : Action).

(** Every transition but [hydrate] selects tasks of the old state in
    their order, edits each one on its own and puts at most one new task
    in front. *)
Lemma reducer_shape state action :
  is_hydrate action = false →
  ∃ kept, kept `sublist_of` state ∧
    drop (added action) (todoReducer state action) = touch action <$> kept.
Proof.
  destruct action as [p|t|i|i|i d|]; intros Hh; try discriminate; simpl.
  - exists state. by rewrite list_fmap_id.
  - by exists state.
  - exists (filter (λ todo, todo.(id) ≠ i) state).
    split; [apply sublist_filter | by rewrite list_fmap_id].
  - by exists state.
  - exists (filter (λ todo, negb todo.(completed)) state).
    split; [apply sublist_filter | by rewrite list_fmap_id].
Qed.

Lemma touch_untargeted action todo :
  ¬ targets action todo → touch action todo = todo.
Proof. destruct action; simpl; try done; intros; by rewrite decide_False. Qed.

Lemma touch_identity action todo :
  identity_safe action → same_identity todo (touch action todo).
Proof.
  destruct action as [p|t|i|i|i d|]; simpl; try done.
  - intros _. by case_decide.
  - intros [Hi Hc]%bool_decide_unpack.
    case_decide; [by apply spread_identity | done].
Qed.
End Frame.

(** C2, as stated, fails: [Partial<Todo>] has an [id] property and the
    spread copies it, so an update carrying [id] renames the task. *)
Lemma update_can_change_id :
  ¬ Forall2 same_identity [task "a" false]
      (todoReducer [task "a" false]
         (update (str "a")
            (mkPartial (Some (str "b")) None None None None None))).
Proof.
  intros H. apply Forall2_cons_1 in H as [[Hid _] _]. vm_compute in Hid.
  discriminate.
Qed.

(** C2 (amended): for every state, every id and every partial field set
    that carries neither [id] nor [createdAt], the state after the update
    has the tasks of the prior state, position by position: a task with
    another id is unchanged in every field, a task with the id is the merge
    of its prior fields with the partial field set, and each task has the
    [id] and the [createdAt] it had.  The same holds of toggle, which
    changes [completed] of the tasks with the id and nothing else; remove
    and clearCompleted hand over the tasks they keep as they are, among
    them every task with another id (every open task); add leaves the
    prior tasks as they are behind the new one. *)
Theorem identity_frame (state : list Todo) (i : jsstring)
    (data : PartialTodo) :
  data.(p_id) = None → data.(p_createdAt) = None →
  Forall2 (λ t t', same_identity t t' ∧
                   (t.(id) ≠ i → t' = t) ∧
                   (t.(id) = i → t' = spread t data))
    state (todoReducer state (update i data)) ∧
  (∀ j, Forall2 (λ t t', same_identity t t' ∧
                         (t.(id) ≠ j → t' = t) ∧
                         t'.(title) = t.(title) ∧ t'.(notes) = t.(notes) ∧
                         t'.(dueDate) = t.(dueDate) ∧
                         (t.(id) = j → t'.(completed) = negb t.(completed)))
          state (todoReducer state (toggle j))) ∧
  (∀ j, todoReducer state (remove j) `sublist_of` state ∧
        ∀ t, t ∈ state → t.(id) ≠ j → t ∈ todoReducer state (remove j)) ∧
  (todoReducer state clearCompleted `sublist_of` state ∧
   ∀ t, t ∈ state → t.(completed) = false →
        t ∈ todoReducer state clearCompleted) ∧
  (∀ t, drop 1 (todoReducer state (add t)) = state).
Proof.
  intros Hid Hcreated. split; [|split; [|split; [|split]]].
  - apply Forall2_fmap_r, Forall_Forall2_diag, Forall_forall.
    intros t _. simpl. case_decide; [|done].
    split; [by apply spread_identity | done].
  - intros j. apply Forall2_fmap_r, Forall_Forall2_diag, Forall_forall.
    intros t _. simpl. by case_decide.
  - intros j. split; [apply sublist_filter|].
    intros t Hin Hne. by apply list_elem_of_filter.
  - split; [apply sublist_filter|].
    intros t Hin Hopen. apply list_elem_of_filter. by rewrite Hopen.
  - done.
Qed.

Lemma identity_frame_witness :
  let state := [task "a" false; task "b" true] in
  let data :=
    mkPartial None (Some (str "Buy oat milk")) None
      (Some (Some (str "2024-02-01"))) (Some true) None in
  Forall2 (λ t t', same_identity t t' ∧
                   (t.(id) ≠ str "a" → t' = t) ∧
                   (t.(id) = str "a" → t' = spread t data))
    state (todoReducer state (update (str "a") data)) ∧
  (∀ j, Forall2 (λ t t', same_identity t t' ∧
                         (t.(id) ≠ j → t' = t) ∧
                         t'.(title) = t.(title) ∧ t'.(notes) = t.(notes) ∧
                         t'.(dueDate) = t.(dueDate) ∧
                         (t.(id) = j → t'.(completed) = negb t.(completed)))
          state (todoReducer state (toggle j))) ∧
  (∀ j, todoReducer state (remove j) `sublist_of` state ∧
        ∀ t, t ∈ state → t.(id) ≠ j → t ∈ todoReducer state (remove j)) ∧
  (todoReducer state clearCompleted `sublist_of` state ∧
   ∀ t, t ∈ state → t.(completed) = false →
        t ∈ todoReducer state clearCompleted) ∧
  (∀ t, drop 1 (todoReducer state (add t)) = state).
Proof.
  apply (identity_frame [task "a" false; task "b" true] (str "a")
           (mkPartial None (Some (str "Buy oat milk")) None
              (Some (Some (str "2024-02-01"))) (Some true) None));
    reflexivity.
Defined.

(** C5: for every state and every task, [add] places the new task at index
    0 and every existing task one index further down, in the order they
    had; every other transition but [hydrate] keeps a subsequence of the
    prior tasks, in their prior order, each edited on its own. *)
Theorem order_preserved (state : list Todo) :
  (∀ t, todoReducer state (add t) !! 0 = Some t ∧
        ∀ k, todoReducer state (add t) !! S k = state !! k) ∧
  (∀ action, is_hydrate action = false → added action = 0 →
     ∃ kept, kept `sublist_of` state ∧
       todoReducer state action = touch action <$> kept).
Proof.
  split; [done|]. intros action Hh Ha.
  destruct (reducer_shape state action Hh) as (kept & Hsub & Heq).
  rewrite Ha in Heq. by exists kept.
Qed.

(** C6: for every state, the state returned by [clearCompleted] has no
    completed task, is a subsequence of the prior state (so each retained
    task is the prior task, field for field, in the prior relative order)
    and retains exactly the tasks that were not completed. *)
Theorem clearCompleted_spec (state : list Todo) :
  Forall (λ t, t.(completed) = false) (todoReducer state clearCompleted) ∧
  todoReducer state clearCompleted `sublist_of` state ∧
  (∀ t, t ∈ todoReducer state clearCompleted ↔
        t ∈ state ∧ t.(completed) = false).
Proof.
  simpl. split; [|split].
  - apply Forall_forall. intros t [Hc _]%list_elem_of_filter.
    by destruct (completed t).
  - apply sublist_filter.
  - intros t. rewrite list_elem_of_filter.
    destruct (completed t); simpl; intuition congruence.
Qed.

(** C7: for every state and every id present in it, toggling that id twice
    in succession gives back the state. *)
Theorem toggle_involutive (state : list Todo) (i : jsstring) :
  i ∈ ids state →
  todoReducer (todoReducer state (toggle i)) (toggle i) = state.
Proof.
  intros _. simpl. induction state as [|t state IH]; [done|].
  rewrite !fmap_cons, IH. f_equal.
  destruct (decide (t.(id) = i)) as [Ht|Ht].
  - rewrite decide_True by done. apply flip_completed_involutive.
  - by rewrite decide_False.
Qed.

Lemma toggle_involutive_witness :
  todoReducer
    (todoReducer [task "a" false; task "b" true] (toggle (str "b")))
    (toggle (str "b"))
  = [task "a" false; task "b" true].
Proof.
  apply (toggle_involutive [task "a" false; task "b" true] (str "b")).
  vm_compute. apply list_elem_of_further, list_elem_of_here.
Defined.

(** C8: the transition function is total and deterministic (every state
    and action have exactly one resulting state, none is an error), and for
    every id absent from the state [toggle], [remove] and [update] return
    the state unchanged. *)
Theorem absent_id_no_op (state : list Todo) (i : jsstring) :
  i ∉ ids state →
  (∀ s action, ∃ s', todoReducer s action = s' ∧
     ∀ s'', todoReducer s action = s'' → s'' = s') ∧
  todoReducer state (toggle i) = state ∧
  todoReducer state (remove i) = state ∧
  (∀ data, todoReducer state (update i data) = state).
Proof.
  intros Hi. split; [|split; [|split]].
  - intros s action. by exists (todoReducer s action).
  - by apply fmap_unmatched.
  - by apply filter_unmatched.
  - intros data. by apply (fmap_unmatched (λ t, spread t data)).
Qed.

Lemma absent_id_no_op_witness :
  (∀ s action, ∃ s', todoReducer s action = s' ∧
     ∀ s'', todoReducer s action = s'' → s'' = s') ∧
  todoReducer [task "a" false] (toggle (str "z")) = [task "a" false] ∧
  todoReducer [task "a" false] (remove (str "z")) = [task "a" false] ∧
  (∀ data, todoReducer [task "a" false] (update (str "z") data)
           = [task "a" false]).
Proof.
  apply (absent_id_no_op [task "a" false] (str "z")).
  vm_compute. intros H. apply list_elem_of_singleton in H. discriminate.
Defined.



(** The scenarios of the specification. *)
Example scenario_buy_milk :
  run [add (task "a" false)] = [task "a" false] ∧
  run [add (task "a" false); toggle (str "a")] = [task "a" true] ∧
  run [add (task "a" false); toggle (str "a"); clearCompleted] = [].
Proof. by vm_compute. Qed.

Example scenario_three_tasks :
  run [add (task "A" false); add (task "B" false); add (task "C" false)]
  = [task "C" false; task "B" false; task "A" false] ∧
  run [add (task "A" false); add (task "B" false); add (task "C" false);
       remove (str "B")]
  = [task "C" false; task "A" false].
Proof. by vm_compute. Qed.

Example update_with_no_fields (state : list Todo) (i : jsstring) :
  todoReducer state (update i no_fields) = state.
Proof.
  simpl. rewrite <- (list_fmap_id state) at 2.
  apply list_fmap_ext; intros _ t _.
  case_decide; [apply spread_no_fields | done].
Qed.

Example remove_idempotent (state : list Todo) (i : jsstring) :
  todoReducer (todoReducer state (remove i)) (remove i)
  = todoReducer state (remove i).
Proof. simpl. apply list_filter_filter_r. naive_solver. Qed.

(** Clearing the date in the edit form: [saveEdit] passes
    [dueDate: undefined], and the merge drops the date. *)
Example update_clears_due_date :
  todoReducer [task_dated]
    (update (str "b") (mkPartial None None None (Some None) None None))
  = [mkTodo task_dated.(id) task_dated.(title) task_dated.(notes) None
       task_dated.(completed) task_dated.(createdAt)].
Proof. by vm_compute. Qed.

(** * Properties of the derived views *)

Section Strings.
Implicit Types (s needle : jsstring).

Lemma startsWith_spec s needle :
  startsWith s needle = true ↔ ∃ after, s = needle ++ after.
Proof.
  revert s; induction needle as [|n needle IH]; intros s; simpl.
  - split; [by exists s | done].
  - destruct s as [|c s].
    + split; [done | by intros [? ?]].
    + rewrite andb_true_iff, N.eqb_eq, IH. split.
      * intros [-> [after ->]]. by exists after.
      * intros [after [= -> ->]]. split; [done | by exists after].
Qed.

Lemma includes_spec s needle :
  includes s needle = true ↔ substring_of needle s.
Proof.
  unfold substring_of. induction s as [|c s IH]; simpl.
  - rewrite orb_false_r, startsWith_spec. split.
    + intros [after ->]. by exists [], after.
    + intros (before & after & Heq). symmetry in Heq.
      apply app_eq_nil in Heq as [-> Heq]. by exists after.
  - rewrite orb_true_iff, startsWith_spec, IH. split.
    + intros [[after ->] | (before & after & ->)].
      * by exists [], after.
      * by exists (c :: before), after.
    + intros ([|c' before] & after & Heq); simpl in Heq.
      * left. by exists after.
      * right. injection Heq as -> ->. by exists before, after.
Qed.
End Strings.

Section ViewProperties.
Variable toLowerCase : jsstring → jsstring.
Implicit Types (todos : list Todo) (todo : Todo) (fltr : Filter.t)
  (query : jsstring).

Lemma shown_spec fltr normalizedQuery todo :
  shown toLowerCase fltr normalizedQuery todo = true ↔
  passes fltr todo ∧
  (normalizedQuery ≠ [] →
   substring_of normalizedQuery
     (toLowerCase (todo.(title) ++ [32%N] ++ todo.(notes)))).
Proof.
  unfold shown, passes.
  destruct fltr, (completed todo); simpl;
    try (split; [done | by intros [? _]]);
    (destruct normalizedQuery as [|c q];
     [ split; [done | done]
     | rewrite includes_spec; split;
       [by intros ?; split | intros [_ H]; by apply H] ]).
Qed.

Lemma remainingCount_count_open todos :
  remainingCount todos = count_open todos.
Proof.
  unfold remainingCount. induction todos as [|todo todos IH]; [done|].
  rewrite filter_cons. simpl. destruct (completed todo); simpl; by rewrite IH.
Qed.
End ViewProperties.

(** C10, as stated, fails: the text searched is the title, a space and the
    notes, so a query that straddles the end of the title and the start of
    the notes does not match although it occurs in their concatenation. *)
Lemma query_across_title_and_notes :
  ¬ (task_ab_cd ∈ filteredTodos ascii_toLowerCase [task_ab_cd] Filter.all
                    (str "bc") ↔
     task_ab_cd ∈ [task_ab_cd] ∧ passes Filter.all task_ab_cd ∧
     (trim (str "bc") ≠ [] →
      substring_of (ascii_toLowerCase (str "bc"))
        (ascii_toLowerCase (task_ab_cd.(title) ++ task_ab_cd.(notes))))).
Proof.
  intros [_ Hclaim]. assert (Hin : task_ab_cd ∈ @nil Todo); [|by inv Hin].
  apply Hclaim. split; [apply list_elem_of_here|]. split; [done|].
  intros _. by exists (str "a"), (str "d").
Qed.

(** C10 (amended): for every task list, filter setting and query string, a
    task appears in the filtered view if and only if it is in the list,
    passes the {all, active, completed} filter against its [completed] flag
    and, when the trimmed and lowercased query is non-empty, that query is
    a substring of the lowercased text made of the title, one space and the
    notes; the view lists these tasks in the order of the list; the
    remaining count is the number of tasks with [completed = false]. *)
Theorem filteredTodos_spec (toLowerCase : jsstring → jsstring)
    (todos : list Todo) (fltr : Filter.t) (query : jsstring) :
  (∀ todo, todo ∈ filteredTodos toLowerCase todos fltr query ↔
     todo ∈ todos ∧ passes fltr todo ∧
     (toLowerCase (trim query) ≠ [] →
      substring_of (toLowerCase (trim query))
        (toLowerCase (todo.(title) ++ [32%N] ++ todo.(notes))))) ∧
  filteredTodos toLowerCase todos fltr query `sublist_of` todos ∧
  remainingCount todos = count_open todos.
Proof.
  split; [|split].
  - intros todo. unfold filteredTodos. rewrite list_elem_of_filter.
    rewrite Is_true_true, shown_spec. tauto.
  - apply sublist_filter.
  - apply remainingCount_count_open.
Qed.

Example search_is_case_insensitive :
  filteredTodos ascii_toLowerCase [task_plain; task_dated] Filter.all
    (str "  MILK ") = [task_plain] ∧
  filteredTodos ascii_toLowerCase [task_plain; task_dated] Filter.completed
    [] = [task_dated] ∧
  remainingCount [task_plain; task_dated] = 1.
Proof. by vm_compute. Qed.

(** * Properties of the serialization *)

Section Quoting.
Implicit Types (c d : N) (s tail : jsstring).

#[local] Arguments hex_digit : simpl never.
#[local] Arguments hex_value : simpl never.

Lemma hex_value_digit d : (d < 16)%N → hex_value (hex_digit d) = Some d.
Proof.
  intros Hd. unfold hex_digit, hex_value.
  destruct (N.ltb_spec d 10).
  - replace ((48 <=? 48 + d) && (48 + d <=? 57))%N with true.
    + f_equal. lia.
    + symmetry. apply andb_true_iff. split; apply N.leb_le; lia.
  - replace ((48 <=? 87 + d) && (87 + d <=? 57))%N with false.
    + replace ((97 <=? 87 + d) && (87 + d <=? 102))%N with true.
      * f_equal. lia.
      * symmetry. apply andb_true_iff. split; apply N.leb_le; lia.
    + symmetry. apply andb_false_iff. right. apply N.leb_gt. lia.
Qed.

Lemma hex_digits_value c :
  (c < 65536)%N →
  (4096 * (c / 4096) + 256 * (c / 256 mod 16) + 16 * (c / 16 mod 16)
   + c mod 16 = c)%N.
Proof. intros Hc. zify. Z.to_euclidean_division_equations. lia. Qed.

Lemma hex_leading_digit c : (c < 65536)%N → (c / 4096 < 16)%N.
Proof. intros Hc. zify. Z.to_euclidean_division_equations. lia. Qed.

Lemma parse_chars_unicode_escape c tail :
  (c < 65536)%N →
  parse_chars (unicode_escape c ++ tail)
  = '(chars, rest) ← parse_chars tail; Some (c :: chars, rest).
Proof.
  intros Hc. simpl.
  rewrite !hex_value_digit
    by (by apply hex_leading_digit || by apply N.mod_lt).
  simpl. by rewrite hex_digits_value.
Qed.

Lemma lone_surrogate_bound prev c next :
  lone_surrogate prev c next = true → (c < 65536)%N.
Proof.
  unfold lone_surrogate, is_leading_surrogate, is_trailing_surrogate.
  rewrite orb_true_iff, !andb_true_iff, !N.leb_le. lia.
Qed.

(** Whatever text [QuoteJSONString] chooses for a code unit, the parser
    reads that code unit back. *)
Lemma parse_chars_quote_unit prev c next tail :
  parse_chars (quote_unit prev c next ++ tail)
  = '(chars, rest) ← parse_chars tail; Some (c :: chars, rest).
Proof.
  unfold quote_unit.
  repeat match goal with
  | |- context [if (c =? ?k)%N then _ else _] =>
      destruct (N.eqb_spec c k) as [->|?]; [reflexivity|]
  end.
  destruct (_ || _) eqn:Hescape.
  - apply parse_chars_unicode_escape.
    apply orb_true_iff in Hescape as [?%N.ltb_lt|?]; [lia|].
    by eapply lone_surrogate_bound.
  - apply orb_false_iff in Hescape as [Hlow _]. simpl.
    rewrite (proj2 (N.eqb_neq c 34)), (proj2 (N.eqb_neq c 92)) by done.
    by rewrite Hlow.
Qed.

Lemma parse_chars_quote_units s prev tail :
  parse_chars (quote_units prev s ++ 34%N :: tail) = Some (s, tail).
Proof.
  revert prev; induction s as [|c s IH]; intros prev; [done|].
  simpl quote_units. rewrite <- app_assoc, parse_chars_quote_unit.
  by rewrite IH.
Qed.

Lemma parse_chars_QuoteJSONString s tail :
  ∃ text, QuoteJSONString s ++ tail = 34%N :: text ∧
          parse_chars text = Some (s, tail).
Proof.
  exists (quote_units None s ++ 34%N :: tail). split.
  - unfold QuoteJSONString. by rewrite <- !app_assoc.
  - apply parse_chars_quote_units.
Qed.
End Quoting.

Section Fuel.
Implicit Types (s rest : jsstring) (fuel : nat).

Lemma skip_ws_length s : length (skip_ws s) ≤ length s.
Proof.
  induction s as [|c s IH]; [done|]. simpl.
  destruct (is_json_space c); simpl; lia.
Qed.

Lemma parse_chars_length_bounded n s chars rest :
  length s ≤ n → parse_chars s = Some (chars, rest) →
  length rest < length s.
Proof.
  revert s chars rest. induction n as [|n IH]; intros [|c s] chars rest;
    simpl; try (intros; discriminate || lia).
  intros Hn. repeat case_match; try discriminate; intros Hparse;
    simplify_option_eq;
    repeat match goal with p : (_ * _)%type |- _ => destruct p end;
    simplify_eq/=; try lia;
    match goal with
    | H : parse_chars ?s' = Some _ |- _ => apply IH in H; simpl in *; lia
    end.
Qed.

Lemma parse_chars_length s chars rest :
  parse_chars s = Some (chars, rest) → length rest < length s.
Proof. by apply (parse_chars_length_bounded (length s)). Qed.

Lemma span_digits_length s digits rest :
  span_digits s = (digits, rest) → length s = length digits + length rest.
Proof.
  revert digits rest; induction s as [|c s IH]; intros digits rest; simpl.
  - by intros [= <- <-].
  - destruct (is_digit c); [|by intros [= <- <-]].
    destruct (span_digits s) as [digits' rest'].
    intros [= <- <-]. simpl. by rewrite (IH digits' rest').
Qed.

Lemma parse_digits_length s digits rest :
  parse_digits s = Some (digits, rest) → length rest < length s.
Proof.
  unfold parse_digits.
  destruct (span_digits s) as [[|d digits'] rest'] eqn:Hspan; [done|].
  intros [= <- <-]. apply span_digits_length in Hspan. simpl in *. lia.
Qed.

Lemma parse_number_length s lexeme rest :
  parse_number s = Some (lexeme, rest) → length rest < length s.
Proof.
  unfold parse_number. intros Hparse.
  repeat (case_match; simplify_option_eq);
    repeat match goal with
    | H : parse_digits _ = Some _ |- _ => apply parse_digits_length in H
    end;
    simpl in *; lia.
Qed.

(** Turns what was parsed into how much input it consumed. *)
Ltac consumed IHv IHe IHm :=
  repeat match goal with
  | H : parse_chars _ = Some _ |- _ => apply parse_chars_length in H
  | H : parse_number _ = Some _ |- _ => apply parse_number_length in H
  | H : parse_value _ _ = Done _ _ |- _ => apply IHv in H
  | H : parse_elements _ _ = Done _ _ |- _ => apply IHe in H
  | H : parse_members _ _ = Done _ _ |- _ => apply IHm in H
  | H : skip_ws ?x = _ |- _ =>
      let L := fresh in
      pose proof (skip_ws_length x) as L; rewrite H in L; clear H
  end.

(** A parser that succeeds has consumed input. *)
Lemma parse_consumes fuel :
  (∀ s v rest, parse_value fuel s = Done v rest → length rest < length s)
  ∧ (∀ s items rest,
       parse_elements fuel s = Done items rest → length rest < length s)
  ∧ (∀ s members rest,
       parse_members fuel s = Done members rest → length rest < length s).
Proof.
  induction fuel as [|fuel (IHv & IHe & IHm)]; [by repeat split|].
  repeat split; intros s ? rest;
    cbn [parse_value parse_elements parse_members];
    unfold bind, of_option, expect; intros Hparse;
    repeat (case_match; simplify_eq);
    consumed IHv IHe IHm; simpl in *; rewrite ?length_drop; lia.
Qed.

(** With more than twice as much fuel as input, no parser runs out of
    fuel. *)
Lemma parse_fuel fuel :
  (∀ s, 2 * length s < fuel → parse_value fuel s ≠ OutOfFuel)
  ∧ (∀ s, 2 * length s + 1 < fuel → parse_elements fuel s ≠ OutOfFuel)
  ∧ (∀ s, 2 * length s + 1 < fuel → parse_members fuel s ≠ OutOfFuel).
Proof.
  induction fuel as [|fuel (IHv & IHe & IHm)];
    [repeat split; intros; lia|].
  destruct (parse_consumes fuel) as (Cv & Ce & Cm).
  repeat split; intros s Hs;
    cbn [parse_value parse_elements parse_members];
    unfold bind, of_option, expect;
    repeat (case_match; simplify_eq); try done;
    match goal with
    | H : parse_value fuel _ = OutOfFuel |- _ => apply IHv in H; [done|]
    | H : parse_elements fuel _ = OutOfFuel |- _ => apply IHe in H; [done|]
    | H : parse_members fuel _ = OutOfFuel |- _ => apply IHm in H; [done|]
    end;
    consumed Cv Ce Cm; simpl in *; lia.
Qed.

Lemma JSON_parse_fuel text : parse_value (fuel_for text) text ≠ OutOfFuel.
Proof. apply parse_fuel. unfold fuel_for. lia. Qed.

(** A result reached with some fuel is the result with any more fuel. *)
Lemma parse_fuel_mono fuel :
  (∀ s r, parse_value fuel s = r → r ≠ OutOfFuel →
     ∀ fuel', fuel ≤ fuel' → parse_value fuel' s = r)
  ∧ (∀ s r, parse_elements fuel s = r → r ≠ OutOfFuel →
       ∀ fuel', fuel ≤ fuel' → parse_elements fuel' s = r)
  ∧ (∀ s r, parse_members fuel s = r → r ≠ OutOfFuel →
       ∀ fuel', fuel ≤ fuel' → parse_members fuel' s = r).
Proof.
  induction fuel as [|fuel (IHv & IHe & IHm)];
    [repeat split; intros; simpl in *; congruence|].
  repeat split; intros s r Hr Hne [|fuel'] Hle; try lia;
    cbn [parse_value parse_elements parse_members] in Hr;
    unfold bind, of_option, expect in Hr;
    repeat (case_match; simplify_eq); try done;
    repeat match goal with
    | H : parse_value fuel ?x = ?r |- _ =>
        pose proof (IHv x r H ltac:(discriminate) fuel' ltac:(lia));
        clear H
    | H : parse_elements fuel ?x = ?r |- _ =>
        pose proof (IHe x r H ltac:(discriminate) fuel' ltac:(lia));
        clear H
    | H : parse_members fuel ?x = ?r |- _ =>
        pose proof (IHm x r H ltac:(discriminate) fuel' ltac:(lia));
        clear H
    end;
    cbn [parse_value parse_elements parse_members];
    unfold bind, of_option, expect;
    repeat match goal with
    | H : ?lhs = _ |- context [?lhs] => rewrite H
    end;
    reflexivity.
Qed.

(** [JSON.parse] returns a value exactly for the JSON texts, whatever
    fuel it takes to read them, and throws a [SyntaxError] otherwise. *)
Lemma JSON_parse_Normal text v :
  JSON_parse text = Normal v ↔ json_text_of v text.
Proof.
  unfold JSON_parse, json_text_of. split.
  - destruct (parse_value (fuel_for text) text) as [v' rest| |] eqn:Hparse;
      try discriminate.
    destruct (skip_ws rest) eqn:Hrest; [|discriminate].
    intros [= <-]. by exists (fuel_for text), rest.
  - intros (fuel & rest & Hparse & Hrest).
    destruct (parse_fuel_mono fuel) as (Hv & _ & _).
    destruct (parse_fuel_mono (fuel_for text)) as (Hv' & _ & _).
    pose proof (JSON_parse_fuel text) as Hfuel.
    specialize (Hv text _ Hparse ltac:(done) (fuel `max` fuel_for text)
                  ltac:(lia)).
    specialize (Hv' text _ eq_refl Hfuel (fuel `max` fuel_for text)
                  ltac:(lia)).
    rewrite <- Hv', Hv. by rewrite Hrest.
Qed.

Lemma JSON_parse_Throw text e :
  JSON_parse text = Throw e ↔ e = SyntaxError ∧ ∀ v, ¬ json_text_of v text.
Proof.
  split.
  - intros Hthrow. split.
    + unfold JSON_parse in Hthrow. repeat case_match; congruence.
    + intros v Hv%JSON_parse_Normal. congruence.
  - intros [-> Hnone]. destruct (JSON_parse text) as [v|[]] eqn:Hparse;
      [by apply JSON_parse_Normal, Hnone in Hparse | done |].
    unfold JSON_parse in Hparse. repeat case_match; congruence.
Qed.
End Fuel.

Section Reparsing.
Implicit Types (v : json) (m : jsstring * json) (tail : jsstring)
  (fuel depth : nat).

Lemma reparses_string s : reparses 1 (JString s).
Proof.
  intros [|fuel] tail Hfuel; [lia|]. simpl serialize.
  destruct (parse_chars_QuoteJSONString s tail) as (text & -> & Hchars).
  simpl. by rewrite Hchars.
Qed.

Lemma reparses_bool b : reparses 1 (JBool b).
Proof. intros [|fuel] tail Hfuel; [lia|]. by destruct b. Qed.

Lemma reparses_more depth depth' v :
  depth ≤ depth' → reparses depth v → reparses depth' v.
Proof. intros Hle Hv fuel tail Hfuel. apply Hv. lia. Qed.

(** One member and what follows it. *)
Lemma parse_members_step depth fuel m tail :
  reparses depth m.2 → depth ≤ fuel →
  parse_members (S fuel) (member_text m ++ tail)
  = match skip_ws tail with
    | e :: rest =>
        if (e =? 44)%N then
          let* (members, rest') := parse_members fuel rest in
          Done (m :: members) rest'
        else if (e =? 125)%N then Done [m] rest
        else Malformed
    | [] => Malformed
    end.
Proof.
  destruct m as [key value]; cbn [fst snd]. intros Hvalue Hfuel.
  unfold member_text; cbn [fst snd]. rewrite <- !app_assoc.
  destruct (parse_chars_QuoteJSONString key
              ([58%N] ++ serialize value ++ tail))
    as (text & -> & Hchars).
  simpl. rewrite Hchars. simpl. by rewrite Hvalue.
Qed.

Lemma parse_members_join depth (members : list (jsstring * json)) :
  members ≠ [] → Forall (λ m, reparses depth m.2) members →
  ∀ fuel tail, length members + depth ≤ fuel →
    parse_members fuel
      (join_comma (member_text <$> members) ++ 125%N :: tail)
    = Done members tail.
Proof.
  induction members as [|m members IH]; [done|].
  intros _ [Hm Hrest]%Forall_cons [|fuel] tail Hfuel;
    [simpl in Hfuel; lia|].
  destruct members as [|m' members].
  - simpl join_comma.
    rewrite (parse_members_step depth) by (done || simpl in *; lia).
    done.
  - change (join_comma (member_text <$> m :: m' :: members))
      with (member_text m ++ [44%N]
            ++ join_comma (member_text <$> m' :: members)).
    rewrite <- !app_assoc.
    rewrite (parse_members_step depth) by (done || simpl in *; lia).
    simpl skip_ws. simpl N.eqb. cbv iota.
    rewrite IH; [done..|]. simpl in *; lia.
Qed.

Lemma reparses_object depth (members : list (jsstring * json)) :
  Forall (λ m, reparses depth m.2) members →
  reparses (S (length members + depth)) (JObject members).
Proof.
  intros Hmembers [|fuel] tail Hfuel; [lia|].
  change (serialize (JObject members))
    with ([123%N] ++ join_comma (member_text <$> members) ++ [125%N]).
  destruct members as [|[key value] members]; [reflexivity|].
  rewrite <- !app_assoc.
  pose proof (parse_members_join depth ((key, value) :: members)
                ltac:(done) Hmembers fuel tail ltac:(simpl in *; lia))
    as Hparse.
  revert Hparse.
  destruct (join_comma (member_text <$> (key, value) :: members))
    as [|c text] eqn:Htext.
  { destruct members; discriminate. }
  assert (c = 34%N) as ->.
  { destruct members; simpl in Htext; by injection Htext. }
  simpl. by intros ->.
Qed.

(** One element and what follows it. *)
Lemma parse_elements_join depth (items : list json) :
  items ≠ [] → Forall (reparses depth) items →
  ∀ fuel tail, length items + depth ≤ fuel →
    parse_elements fuel (join_comma (serialize <$> items) ++ 93%N :: tail)
    = Done items tail.
Proof.
  induction items as [|v items IH]; [done|].
  intros _ [Hv Hrest]%Forall_cons [|fuel] tail Hfuel;
    [simpl in Hfuel; lia|].
  destruct items as [|v' items].
  - simpl join_comma. simpl parse_elements.
    rewrite Hv by (simpl in *; lia). done.
  - change (join_comma (serialize <$> v :: v' :: items))
      with (serialize v ++ [44%N] ++ join_comma (serialize <$> v' :: items)).
    rewrite <- !app_assoc. simpl parse_elements.
    rewrite Hv by (simpl in *; lia). simpl.
    rewrite IH; [done..|]. simpl in *; lia.
Qed.

Lemma reparses_array depth (items : list json) :
  Forall (reparses depth) items →
  Forall (λ v, ∃ text, serialize v = 123%N :: text) items →
  reparses (S (length items + depth)) (JArray items).
Proof.
  intros Hitems Hhead [|fuel] tail Hfuel; [lia|].
  change (serialize (JArray items))
    with ([91%N] ++ join_comma (serialize <$> items) ++ [93%N]).
  destruct items as [|v items]; [reflexivity|].
  rewrite <- !app_assoc.
  pose proof (parse_elements_join depth (v :: items) ltac:(done) Hitems
                fuel tail ltac:(simpl in *; lia)) as Hparse.
  revert Hparse.
  apply Forall_cons in Hhead as [[text Hv] _].
  destruct (join_comma (serialize <$> v :: items)) as [|c text'] eqn:Htext.
  { destruct items; simpl in Htext; rewrite Hv in Htext; discriminate. }
  assert (c = 123%N) as ->.
  { destruct items; simpl in Htext; rewrite Hv in Htext;
      by injection Htext. }
  simpl. by intros ->.
Qed.
End Reparsing.

Section RoundTrip.
Implicit Types (todo : Todo) (todos : list Todo).

Lemma reparses_todo todo : reparses 8 (todo_value todo).
Proof.
  unfold todo_value.
  eapply reparses_more; [|apply (reparses_object 1)].
  - rewrite !length_app. destruct (dueDate todo); simpl; lia.
  - rewrite !Forall_app. repeat split;
      [|destruct (dueDate todo)|];
      repeat apply Forall_cons_2; try apply Forall_nil_2;
      apply reparses_string || apply reparses_bool.
Qed.

Lemma todo_text_head todo :
  ∃ text, serialize (todo_value todo) = 123%N :: text.
Proof. by eexists. Qed.

Lemma todo_text_length todo : 4 ≤ length (serialize (todo_value todo)).
Proof. simpl. lia. Qed.

Lemma join_comma_length (parts : list jsstring) :
  Forall (λ part, 4 ≤ length part) parts →
  4 * length parts ≤ length (join_comma parts).
Proof.
  induction 1 as [|part parts Hpart _ IH]; [done|].
  destruct parts as [|part' parts]; [simpl; lia|].
  change (join_comma (part :: part' :: parts))
    with (part ++ [44%N] ++ join_comma (part' :: parts)).
  rewrite !length_app. simpl in *. lia.
Qed.

Lemma stringify_fuel todo todos :
  S (length (todo_value <$> todo :: todos) + 8)
  ≤ fuel_for (JSON_stringify (todo :: todos)).
Proof.
  unfold fuel_for, JSON_stringify.
  change (serialize (JArray (todo_value <$> todo :: todos)))
    with ([91%N] ++ join_comma (serialize <$> (todo_value <$> todo :: todos))
          ++ [93%N]).
  rewrite !length_app.
  assert (Forall (λ part, 4 ≤ length part)
            (serialize <$> (todo_value <$> todo :: todos))) as Hjoin.
  { rewrite <- list_fmap_compose. apply Forall_fmap, Forall_forall.
    intros t _. apply todo_text_length. }
  apply join_comma_length in Hjoin.
  rewrite !length_fmap in Hjoin. rewrite length_fmap.
  simpl length in *. lia.
Qed.

Lemma JSON_parse_stringify todos :
  JSON_parse (JSON_stringify todos) = Normal (JArray (todo_value <$> todos)).
Proof.
  destruct todos as [|todo todos]; [reflexivity|].
  unfold JSON_parse.
  assert (reparses (S (length (todo_value <$> todo :: todos) + 8))
            (JArray (todo_value <$> todo :: todos))) as Harray.
  { apply reparses_array; apply Forall_fmap, Forall_forall; intros t _;
      [apply reparses_todo | apply todo_text_head]. }
  specialize (Harray (fuel_for (JSON_stringify (todo :: todos))) []
                (stringify_fuel todo todos)).
  rewrite app_nil_r in Harray. unfold JSON_stringify at 2.
  by rewrite Harray.
Qed.

Lemma as_todo_value todo : as_todo (todo_value todo) = Some todo.
Proof. by destruct todo as [? ? ? [date|] ? ?]. Qed.

Lemma as_todos_values todos :
  as_todos (JArray (todo_value <$> todos)) = Some todos.
Proof.
  unfold as_todos. apply mapM_Some.
  apply Forall2_fmap_l, Forall_Forall2_diag, Forall_forall.
  intros todo _. apply as_todo_value.
Qed.

Lemma stringify_nonempty todos :
  ∃ text, JSON_stringify todos = 91%N :: text.
Proof. by eexists. Qed.

End RoundTrip.

Example JSON_parse_examples :
  JSON_parse (str "[1,]") = Throw SyntaxError ∧
  JSON_parse (str "{oops") = Throw SyntaxError ∧
  JSON_parse [] = Throw SyntaxError ∧
  JSON_parse (str " [ true , null, -1.5e3 ] ")
  = Normal (JArray [JBool true; JNull; JNumber (str "-1.5e3")]) ∧
  JSON_parse (str "{}") = Normal (JObject []).
Proof. by vm_compute. Qed.

Example stringify_then_parse :
  JSON_parse (JSON_stringify [task_plain; task_dated])
  = Normal (JArray [todo_value task_plain; todo_value task_dated]).
Proof. by vm_compute. Qed.

(** * Properties of the persistence bridge *)

Section Hydration.
Implicit Types (st : Storage) (text : jsstring) (w : World).

#[local] Arguments JSON_parse : simpl never.
#[local] Arguments as_todos : simpl never.
#[local] Arguments JSON_stringify : simpl never.

(** The four ways the hydration effect can go. *)
Lemma hydration_effect_cases st :
  hydration_effect st =
  if st.(getItem_throws)
  then Some ([ConsoleError (str "Failed to load stored todos");
              HydratedSet true], Normal ())
  else match st.(items) !! STORAGE_KEY with
       | None | Some [] => Some ([HydratedSet true], Normal ())
       | Some text =>
           match JSON_parse text with
           | Throw _ =>
               Some ([ConsoleError (str "Failed to load stored todos");
                      HydratedSet true], Normal ())
           | Normal value =>
               match as_todos value with
               | Some parsed =>
                   Some ([Dispatched (hydrate parsed); HydratedSet true],
                         Normal ())
               | None => None
               end
           end
       end.
Proof.
  unfold hydration_effect, getItem.
  destruct (getItem_throws st); [reflexivity|].
  destruct (items st !! STORAGE_KEY) as [[|c text]|];
    [reflexivity| |reflexivity].
  simpl. destruct (JSON_parse (c :: text)) as [value|e]; [|reflexivity].
  simpl. by destruct (as_todos value).
Qed.

(** No exception leaves the hydration effect, and the last thing it
    does is to set the latch. *)
Lemma hydration_effect_completes st events c :
  hydration_effect st = Some (events, c) →
  c = Normal () ∧ ∃ before, events = before ++ [HydratedSet true].
Proof.
  rewrite hydration_effect_cases.
  repeat case_match; intros [= <- <-]; split; try done;
    solve [by exists [] | by eexists [_]].
Qed.

Lemma mount_reloads todos :
  state <$> mount (storage_holding (JSON_stringify todos)) = Some todos.
Proof.
  unfold mount. rewrite hydration_effect_cases. simpl.
  rewrite lookup_singleton_eq.
  rewrite JSON_parse_stringify, as_todos_values.
  destruct (stringify_nonempty todos) as [text ->]. simpl.
  unfold writeback_effect; simpl. done.
Qed.

Lemma guarded_nil : guarded [].
Proof. intros [|? ?] ? ? ? ?; discriminate. Qed.

Lemma guarded_snoc events e :
  guarded events →
  (∀ key value, e = SetItem key value →
     HydratedSet true ∈ events ∧ key = STORAGE_KEY) →
  guarded (events ++ [e]).
Proof.
  intros Hevents He before key value later.
  destruct later as [|x later _] using rev_ind.
  - intros [-> ->]%app_inj_tail. by apply (He key value).
  - rewrite app_comm_cons, app_assoc. intros [-> ->]%app_inj_tail.
    by apply (Hevents before key value later).
Qed.

Lemma writeback_effect_before_latch w :
  w.(hydrated) = false → writeback_effect w = w.
Proof. unfold writeback_effect. by intros ->. Qed.

Lemma writeback_effect_after_latch w :
  w.(hydrated) = true →
  writeback_effect w =
  mkWorld w.(state) true
    (if w.(storage).(setItem_throws) then w.(storage)
     else mkStorage
            (<[STORAGE_KEY := JSON_stringify w.(state)]>
               w.(storage).(items))
            w.(storage).(getItem_throws) false)
    (w.(trace) ++ [SetItem STORAGE_KEY (JSON_stringify w.(state))])
    (w.(crashed) || w.(storage).(setItem_throws)).
Proof.
  unfold writeback_effect, setItem. intros Hw. rewrite Hw. simpl.
  destruct (setItem_throws (storage w)) eqn:Hthrows; simpl.
  - by rewrite Hw, orb_true_r.
  - by rewrite Hw, orb_false_r.
Qed.

Lemma writeback_effect_consistent w :
  consistent w → consistent (writeback_effect w).
Proof.
  intros [Hguarded Hlatch].
  destruct (hydrated w) eqn:Hw.
  - rewrite writeback_effect_after_latch by done.
    split; simpl.
    + apply guarded_snoc; [done|]. intros key value [= <- _].
      split; [by apply Hlatch | done].
    + intros _. apply elem_of_app. left. by apply Hlatch.
  - rewrite writeback_effect_before_latch by done.
    split; [done | congruence].
Qed.

Lemma writeback_effect_mirrored w :
  w.(hydrated) = true → (writeback_effect w).(crashed) = false →
  mirrored (writeback_effect w).
Proof.
  intros Hw. rewrite writeback_effect_after_latch by done.
  unfold mirrored; simpl. intros [_ ->]%orb_false_iff. simpl.
  apply lookup_insert_eq.
Qed.

Lemma apply_event_consistent w e :
  is_write e = false → consistent w → consistent (apply_event w e).
Proof.
  intros He [Hguarded Hlatch].
  destruct e as [action|value|message|key value]; try discriminate;
    (split; simpl; [apply guarded_snoc; [done | discriminate]|]).
  - intros Hw. apply elem_of_app. left. by apply Hlatch.
  - intros ->. apply elem_of_app. right. apply list_elem_of_here.
  - intros Hw. apply elem_of_app. left. by apply Hlatch.
Qed.

Lemma foldl_apply_event_consistent events w :
  Forall (λ e, is_write e = false) events → consistent w →
  consistent (foldl apply_event w events).
Proof.
  intros Hevents. revert w.
  induction Hevents as [|e events He _ IH]; intros w Hw; [done|].
  simpl. by apply IH, apply_event_consistent.
Qed.

(** The hydration effect writes nothing. *)
Lemma hydration_effect_events st events c :
  hydration_effect st = Some (events, c) →
  Forall (λ e, is_write e = false) events.
Proof.
  rewrite hydration_effect_cases.
  repeat case_match; intros [= <- <-]; by repeat constructor.
Qed.

Lemma foldl_apply_event_latch events w :
  (foldl apply_event w (events ++ [HydratedSet true])).(hydrated) = true.
Proof. by rewrite foldl_app. Qed.

Lemma mount_spec st w :
  mount st = Some w →
  ∃ events second,
    hydration_effect st = Some (events, Normal ()) ∧
    second = foldl apply_event (mkWorld [] false st [] false) events ∧
    second.(hydrated) = true ∧ w = writeback_effect second.
Proof.
  unfold mount.
  destruct (hydration_effect st) as [[events c]|] eqn:Heffect;
    [|discriminate].
  destruct (hydration_effect_completes st events c Heffect)
    as [-> [before ->]].
  simpl. intros [= <-]. eexists _, _. repeat split.
  apply foldl_apply_event_latch.
Qed.

Lemma mount_consistent st w : mount st = Some w → consistent w.
Proof.
  intros (events & second & Heffect & -> & _ & ->)%mount_spec.
  apply writeback_effect_consistent, foldl_apply_event_consistent.
  - by eapply hydration_effect_events.
  - split; [apply guarded_nil | discriminate].
Qed.

Lemma writeback_effect_hydrated w :
  (writeback_effect w).(hydrated) = w.(hydrated).
Proof.
  destruct (hydrated w) eqn:Hw.
  - by rewrite writeback_effect_after_latch.
  - by rewrite writeback_effect_before_latch.
Qed.

Lemma mount_hydrated st w : mount st = Some w → w.(hydrated) = true.
Proof.
  intros (events & second & _ & _ & Hsecond & ->)%mount_spec.
  by rewrite writeback_effect_hydrated.
Qed.

Lemma mount_mirrored st w :
  mount st = Some w → w.(crashed) = false → mirrored w.
Proof.
  intros (events & second & _ & _ & Hsecond & ->)%mount_spec.
  by apply writeback_effect_mirrored.
Qed.

Lemma dispatch_consistent w action :
  consistent w → consistent (dispatch w action).
Proof.
  intros Hw. unfold dispatch. destruct (crashed w); [done|].
  by apply writeback_effect_consistent, apply_event_consistent.
Qed.

Lemma dispatch_hydrated w action :
  (dispatch w action).(hydrated) = w.(hydrated).
Proof.
  unfold dispatch. destruct (crashed w); [done|].
  by rewrite writeback_effect_hydrated.
Qed.

(** What one intent does once the latch is set. *)
Lemma dispatch_after_latch w action :
  w.(hydrated) = true → w.(crashed) = false →
  let value := JSON_stringify (todoReducer w.(state) action) in
  dispatch w action =
  mkWorld (todoReducer w.(state) action) true
    (if w.(storage).(setItem_throws) then w.(storage)
     else mkStorage (<[STORAGE_KEY := value]> w.(storage).(items))
            w.(storage).(getItem_throws) false)
    (w.(trace) ++ [Dispatched action; SetItem STORAGE_KEY value])
    w.(storage).(setItem_throws).
Proof.
  intros Hw Hc. unfold dispatch. rewrite Hc.
  rewrite writeback_effect_after_latch by done. simpl.
  by rewrite Hc, <- app_assoc.
Qed.

(** What one intent does while the latch is not set. *)
Lemma dispatch_before_latch w action :
  w.(hydrated) = false → w.(crashed) = false →
  dispatch w action =
  mkWorld (todoReducer w.(state) action) false w.(storage)
    (w.(trace) ++ [Dispatched action]) false.
Proof.
  intros Hw Hc. unfold dispatch. rewrite Hc.
  rewrite writeback_effect_before_latch by done. simpl. by rewrite Hw, Hc.
Qed.

(** Queued updates touch neither the storage nor the crash flag, and are
    recorded in order. *)
Lemma foldl_apply_event_frame events w :
  (foldl apply_event w events).(storage) = w.(storage)
  ∧ (foldl apply_event w events).(crashed) = w.(crashed)
  ∧ (foldl apply_event w events).(trace) = w.(trace) ++ events.
Proof.
  revert w. induction events as [|e events IH]; intros w; simpl.
  - by rewrite app_nil_r.
  - destruct (IH (apply_event w e)) as (-> & -> & ->).
    destruct e; simpl; by rewrite <- app_assoc.
Qed.

(** The world after startup, spelled out. *)
Lemma mount_world st w :
  mount st = Some w →
  ∃ events loaded,
    hydration_effect st = Some (events, Normal ())
    ∧ Forall (λ e, is_write e = false) events
    ∧ w = mkWorld loaded true
            (if st.(setItem_throws) then st
             else mkStorage
                    (<[STORAGE_KEY := JSON_stringify loaded]> st.(items))
                    st.(getItem_throws) false)
            (events ++ [SetItem STORAGE_KEY (JSON_stringify loaded)])
            st.(setItem_throws).
Proof.
  intros (events & second & Heffect & Hsecond & Hlatch & ->)%mount_spec.
  exists events, second.(state). split; [done|].
  split; [by eapply hydration_effect_events|].
  rewrite writeback_effect_after_latch by done.
  destruct (foldl_apply_event_frame events (mkWorld [] false st [] false))
    as (Hst & Hcr & Htr).
  rewrite <- Hsecond in Hst, Hcr, Htr. simpl in Hst, Hcr, Htr.
  by rewrite Hst, Hcr, Htr.
Qed.

Lemma session_spec st actions w :
  session st actions = Some w →
  consistent w ∧ w.(hydrated) = true ∧ (w.(crashed) = false → mirrored w).
Proof.
  unfold session.
  destruct (mount st) as [w0|] eqn:Hmount; [|discriminate].
  simpl. intros [= <-].
  assert (consistent w0 ∧ w0.(hydrated) = true
          ∧ (w0.(crashed) = false → mirrored w0)) as Hw0.
  { split; [by eapply mount_consistent|].
    split; [by eapply mount_hydrated | by eapply mount_mirrored]. }
  clear Hmount. revert w0 Hw0.
  induction actions as [|action actions IH]; intros w0 Hw0; [done|].
  simpl. apply IH. destruct Hw0 as (Hc & Hh & Hm).
  split; [by apply dispatch_consistent|].
  split; [by rewrite dispatch_hydrated|].
  destruct (crashed w0) eqn:Hcrashed.
  - unfold dispatch. rewrite Hcrashed. congruence.
  - rewrite dispatch_after_latch by done. unfold mirrored; simpl.
    intros ->. simpl. apply lookup_insert_eq.
Qed.
End Hydration.

(** C9: for every state reachable by the transitions, the text that
    [JSON.stringify] writes for it parses, the parsed value is read as a
    list of tasks, and hydrating with that list (from any state, and in
    particular at the next startup from a storage that holds the text)
    yields the state itself; a task without a due date is written without
    a [dueDate] member, and no member is ever [null]. *)
Theorem serialization_round_trip (actions : list Action) :
  ∃ value parsed,
    JSON_parse (JSON_stringify (run actions)) = Normal value ∧
    as_todos value = Some parsed ∧
    (∀ state0, todoReducer state0 (hydrate parsed) = run actions) ∧
    state <$> mount (storage_holding (JSON_stringify (run actions)))
    = Some (run actions) ∧
    value = JArray (todo_value <$> run actions) ∧
    ∀ todo, todo ∈ run actions →
      (JNull ∉ (snd <$> members_of (todo_value todo))) ∧
      (todo.(dueDate) = None →
       str "dueDate" ∉ (fst <$> members_of (todo_value todo))).
Proof.
  exists (JArray (todo_value <$> run actions)), (run actions).
  split; [apply JSON_parse_stringify|].
  split; [apply as_todos_values|].
  split; [done|]. split; [apply mount_reloads|]. split; [done|].
  intros [? ? ? date ? ?] _. split.
  - destruct date; simpl; intros Hin;
      repeat (apply elem_of_cons in Hin as [Hin|Hin]; [discriminate|]);
      by apply elem_of_nil in Hin.
  - simpl. intros ->. simpl. intros Hin.
    repeat (apply elem_of_cons in Hin as [Hin|Hin]; [discriminate|]).
    by apply elem_of_nil in Hin.
Qed.

(** A startup whose read fails.  If the storage read throws, the stored
    value is absent or the stored text is not JSON, then the hydration
    effect completes without an exception and dispatches nothing, the state
    after startup is the empty collection and the latch is set.  The
    write-back that the latch triggers is outside the [try]: an exception
    escapes it exactly when the storage rejects the write. *)
Lemma startup_read_failure (st : Storage) :
  st.(getItem_throws) = true
  ∨ st.(items) !! STORAGE_KEY = None
  ∨ (∃ text, st.(items) !! STORAGE_KEY = Some text
             ∧ JSON_parse text = Throw SyntaxError) →
  ∃ events w,
    hydration_effect st = Some (events, Normal ()) ∧
    (∀ action, Dispatched action ∉ events) ∧
    mount st = Some w ∧ w.(state) = [] ∧ w.(hydrated) = true ∧
    w.(crashed) = st.(setItem_throws).
Proof.
  intros Hfailure.
  assert (∃ events, hydration_effect st = Some (events, Normal ())
                    ∧ Forall (λ e, e = HydratedSet true
                                   ∨ ∃ m, e = ConsoleError m) events)
    as (events & Heffect & Hevents).
  { rewrite hydration_effect_cases.
    destruct (getItem_throws st);
      [|destruct Hfailure as [?|[->|(text & -> & ->)]]; [done| |destruct text]];
      eexists; (split; [done|]);
      repeat (apply Forall_cons_2 || apply Forall_nil_2); eauto. }
  destruct (mount st) as [w|] eqn:Hmount;
    [|unfold mount in Hmount; by rewrite Heffect in Hmount].
  exists events, w. split; [done|]. split.
  { intros action Hin. rewrite Forall_forall in Hevents.
    by destruct (Hevents _ Hin) as [?|[? ?]]. }
  split; [done|].
  pose proof (mount_hydrated st w Hmount) as Hhydrated.
  apply mount_spec in Hmount as (events' & second & Heffect' & -> & Hsecond
                                 & ->).
  rewrite Heffect in Heffect'. injection Heffect' as <-.
  rewrite writeback_effect_after_latch by done. simpl.
  assert (∀ w0, (foldl apply_event w0 events).(state) = w0.(state)
                ∧ (foldl apply_event w0 events).(crashed) = w0.(crashed)
                ∧ (foldl apply_event w0 events).(storage) = w0.(storage))
    as Hsame.
  { clear -Hevents. induction Hevents as [|e events He _ IH]; [done|].
    intros w0. simpl. destruct (IH (apply_event w0 e)) as (-> & -> & ->).
    by destruct He as [->|[m ->]]. }
  destruct (Hsame (mkWorld [] false st [] false)) as (-> & -> & ->).
  done.
Qed.

(** The text written for a state denotes it. *)
Lemma denotes_stringify (state : list Todo) :
  denotes (JSON_stringify state) state.
Proof.
  eexists. split; [apply JSON_parse_stringify | apply as_todos_values].
Qed.

(** [as_todo] reads the six properties by key: two objects that agree on
    them are read as the same task, whatever the order of their members
    and whatever further members they have. *)
Lemma as_todo_by_key (members members' : list (jsstring * json)) :
  (∀ key,
     key ∈ [str "id"; str "title"; str "notes"; str "dueDate";
            str "completed"; str "createdAt"] →
     property key members' = property key members) →
  as_todo (JObject members') = as_todo (JObject members).
Proof.
  intros Hkeys. unfold as_todo.
  rewrite !Hkeys; [done|..];
    repeat (apply list_elem_of_here || apply list_elem_of_further).
Qed.

(** The text the page writes for [task_dated] after it was reloaded without
    a due date and the date was then picked in the edit form lists
    [dueDate] last; a stored text may also carry a member of another name.
    Both denote the same state as the text of [JSON_stringify]. *)
Example denotes_other_layout :
  denotes
    (serialize
       (JArray
          [JObject
             [(str "id", JString task_dated.(id));
              (str "title", JString task_dated.(title));
              (str "notes", JString task_dated.(notes));
              (str "completed", JBool true);
              (str "createdAt", JString task_dated.(createdAt));
              (str "dueDate", JString (str "2024-01-02"))]]))
    [task_dated] ∧
  denotes
    (serialize
       (JArray
          [JObject
             [(str "priority", JNumber (str "1"));
              (str "createdAt", JString task_plain.(createdAt));
              (str "completed", JBool false);
              (str "notes", JString []);
              (str "title", JString (str "Buy milk"));
              (str "id", JString (str "a"))]]))
    [task_plain].
Proof. split; eexists; split; vm_compute; reflexivity. Qed.

(** C4: the claim fails when the storage rejects writes as well as reads.
    If the storage read throws, the stored value is absent or the stored
    text is not JSON, the hydration effect catches the failure, dispatches
    nothing and sets the latch, and the state is the empty collection, as
    the claim says; the write-back effect that the latch triggers then
    calls [setItem] outside any [try], and on a storage whose [setItem]
    throws the exception escapes: the startup ends with the component
    crashed, after one write attempt for the empty state, the storage left
    as it was. *)
Theorem startup_read_failure_crashes (st : Storage) :
  st.(setItem_throws) = true →
  st.(getItem_throws) = true
  ∨ st.(items) !! STORAGE_KEY = None
  ∨ (∃ text, st.(items) !! STORAGE_KEY = Some text
             ∧ JSON_parse text = Throw SyntaxError) →
  ∃ events w,
    hydration_effect st = Some (events, Normal ()) ∧
    (∀ action, Dispatched action ∉ events) ∧
    mount st = Some w ∧ w.(state) = [] ∧ w.(hydrated) = true ∧
    w.(trace) = events ++ [SetItem STORAGE_KEY (str "[]")] ∧
    w.(storage) = st ∧
    w.(crashed) = true.
Proof.
  intros Hwrite Hread.
  destruct (startup_read_failure st Hread)
    as (events & w & Heffect & Hevents & Hmount & Hstate & Hlatch & Hcrashed).
  exists events, w. repeat (split; [done|]).
  destruct (mount_world st w Hmount)
    as (events' & loaded & Heffect' & _ & Hw).
  rewrite Heffect in Heffect'. injection Heffect' as <-.
  rewrite Hw in Hstate |- *. simpl in Hstate |- *. subst loaded.
  rewrite Hwrite. repeat split; reflexivity.
Qed.

Lemma startup_read_failure_crashes_witness :
  ∃ events w,
    hydration_effect (mkStorage ∅ true true) = Some (events, Normal ()) ∧
    (∀ action, Dispatched action ∉ events) ∧
    mount (mkStorage ∅ true true) = Some w ∧
    w.(state) = [] ∧ w.(hydrated) = true ∧
    w.(trace) = events ++ [SetItem STORAGE_KEY (str "[]")] ∧
    w.(storage) = mkStorage ∅ true true ∧
    w.(crashed) = true.
Proof.
  apply (startup_read_failure_crashes (mkStorage ∅ true true)).
  - reflexivity.
  - left. reflexivity.
Defined.

(** C3: in every session, each write to the storage is preceded by the
    setting of the latch and goes to the one fixed key, and the write-back
    effect does nothing to a component whose latch is not set; once the
    latch is set, which every startup ends with, each state change makes
    the component call [setItem] on the fixed key with a text that denotes
    the full new state (the next startup reads exactly that state from
    it), after which, the storage having accepted the writes, the slot
    holds that text in place of what it held. *)
Theorem write_back_gated (st : Storage) (actions : list Action) (w : World) :
  session st actions = Some w →
  (∀ before key value later,
     w.(trace) = before ++ SetItem key value :: later →
     HydratedSet true ∈ before ∧ key = STORAGE_KEY) ∧
  (∀ w0, w0.(hydrated) = false → writeback_effect w0 = w0) ∧
  w.(hydrated) = true ∧
  (w.(crashed) = false →
   (∃ text, w.(storage).(items) !! STORAGE_KEY = Some text
            ∧ denotes text w.(state)) ∧
   ∀ action,
     let w' := dispatch w action in
     w'.(state) = todoReducer w.(state) action ∧
     ∃ text,
       denotes text w'.(state) ∧
       w'.(trace) = w.(trace) ++ [Dispatched action; SetItem STORAGE_KEY text]
       ∧ (w'.(crashed) = false →
          w'.(storage).(items) = <[STORAGE_KEY := text]> w.(storage).(items))).
Proof.
  intros ([Hguarded _] & Hhydrated & Hmirrored)%session_spec.
  split; [done|]. split; [apply writeback_effect_before_latch|].
  split; [done|]. intros Hcrashed. split.
  { eexists. split; [by apply Hmirrored | apply denotes_stringify]. }
  intros action w'. subst w'. rewrite dispatch_after_latch by done. simpl.
  split; [done|].
  exists (JSON_stringify (todoReducer w.(state) action)).
  split; [apply denotes_stringify|]. split; [done|]. by intros ->.
Qed.

Lemma write_back_gated_witness :
  ∃ w,
    session (storage_holding (JSON_stringify [task_plain; task_dated]))
      [toggle (str "a"); clearCompleted] = Some w ∧
    (∀ before key value later,
       w.(trace) = before ++ SetItem key value :: later →
       HydratedSet true ∈ before ∧ key = STORAGE_KEY) ∧
    (∀ w0, w0.(hydrated) = false → writeback_effect w0 = w0) ∧
    w.(hydrated) = true ∧
    (w.(crashed) = false →
     (∃ text, w.(storage).(items) !! STORAGE_KEY = Some text
              ∧ denotes text w.(state)) ∧
     ∀ action,
       let w' := dispatch w action in
       w'.(state) = todoReducer w.(state) action ∧
       ∃ text,
         denotes text w'.(state) ∧
         w'.(trace)
         = w.(trace) ++ [Dispatched action; SetItem STORAGE_KEY text]
         ∧ (w'.(crashed) = false →
            w'.(storage).(items)
            = <[STORAGE_KEY := text]> w.(storage).(items))).
Proof.
  eexists. split; [vm_compute; reflexivity|].
  apply (write_back_gated
           (storage_holding (JSON_stringify [task_plain; task_dated]))
           [toggle (str "a"); clearCompleted]).
  vm_compute. reflexivity.
Defined.

(** A storage that is switched off: the read is caught, the write-back that
    the latch triggers is not. *)
Example startup_with_storage_off :
  crashed <$> mount (mkStorage ∅ true true) = Some true ∧
  crashed <$> mount (mkStorage ∅ true false) = Some false.
Proof. by vm_compute. Qed.

(** * Further properties: trimming *)

Section Trimming.
Implicit Types (s : jsstring) (c : N).

Lemma trimStart_clean s : starts_clean (trimStart s).
Proof.
  induction s as [|c s IH]; [done|]. simpl.
  by destruct (is_white_space c) eqn:Hc.
Qed.

Lemma trimStart_id s : starts_clean s → trimStart s = s.
Proof. destruct s as [|c s]; [done|]. simpl. by intros ->. Qed.

Lemma trimStart_nil s :
  trimStart s = [] ↔ Forall (λ c, is_white_space c = true) s.
Proof.
  induction s as [|c s IH]; simpl.
  - split; [constructor | done].
  - destruct (is_white_space c) eqn:Hc.
    + rewrite IH, Forall_cons. tauto.
    + split; [done|]. intros [? _]%Forall_cons. congruence.
Qed.

(** Leading white space is all that [trimStart] removes. *)
Lemma trimStart_split s :
  ∃ blank, s = blank ++ trimStart s
           ∧ Forall (λ c, is_white_space c = true) blank.
Proof.
  induction s as [|c s (blank & Hs & Hblank)]; [by exists []|]. simpl.
  destruct (is_white_space c) eqn:Hc.
  - exists (c :: blank). split; [by rewrite Hs at 1 | by constructor].
  - by exists [].
Qed.

Lemma trimStart_snoc s c :
  is_white_space c = false → trimStart (s ++ [c]) = trimStart s ++ [c].
Proof.
  intros Hc. induction s as [|d s IH]; simpl; [by rewrite Hc|].
  by destruct (is_white_space d).
Qed.

(** Trimming the end keeps a clean start. *)
Lemma trimEnd_starts_clean s : starts_clean s → starts_clean (trimEnd s).
Proof.
  unfold trimEnd. destruct s as [|c s]; [done|]. simpl. intros Hc.
  rewrite reverse_cons, trimStart_snoc, reverse_snoc by done. done.
Qed.

Lemma trim_trimmed s : trimmed (trim s).
Proof.
  unfold trim. split.
  - apply trimEnd_starts_clean, trimStart_clean.
  - unfold trimEnd. rewrite reverse_involutive. apply trimStart_clean.
Qed.

Lemma trim_id s : trimmed s → trim s = s.
Proof.
  intros [Hstart Hend]. unfold trim, trimEnd.
  rewrite (trimStart_id s), (trimStart_id (reverse s)) by done.
  apply reverse_involutive.
Qed.

Lemma trim_idempotent s : trim (trim s) = trim s.
Proof. apply trim_id, trim_trimmed. Qed.

Lemma trim_nil s : trim s = [] ↔ Forall (λ c, is_white_space c = true) s.
Proof.
  unfold trim, trimEnd. split.
  - intros Hnil. apply (f_equal reverse) in Hnil.
    rewrite reverse_involutive in Hnil.
    change (reverse []) with (@nil N) in Hnil.
    apply trimStart_nil, Forall_reverse in Hnil.
    rewrite reverse_involutive in Hnil.
    destruct (trimStart_split s) as (blank & Hs & Hblank).
    rewrite Hs. by apply Forall_app.
  - intros Hs%trimStart_nil. by rewrite Hs.
Qed.

(** What [trim] removes is white space, at the two ends. *)
Lemma trim_split s :
  ∃ before after,
    s = before ++ trim s ++ after
    ∧ Forall (λ c, is_white_space c = true) before
    ∧ Forall (λ c, is_white_space c = true) after.
Proof.
  destruct (trimStart_split s) as (before & Hs & Hbefore).
  destruct (trimStart_split (reverse (trimStart s)))
    as (after & Hrev & Hafter).
  exists before, (reverse after). split; [|split; [done|]].
  - rewrite Hs at 1. f_equal. unfold trim, trimEnd.
    rewrite <- reverse_app, <- Hrev. by rewrite reverse_involutive.
  - by apply Forall_reverse.
Qed.
End Trimming.

(** * Further properties: the reducer *)

Section ReducerAlgebra.
Implicit Types (state : list Todo) (todo t : Todo) (i j : jsstring)
  (data first second : PartialTodo).

Lemma spread_merge todo first second :
  spread (spread todo first) second = spread todo (merge first second).
Proof.
  destruct first as [[?|] [?|] [?|] [?|] [?|] [?|]],
    second as [[?|] [?|] [?|] [?|] [?|] [?|]]; reflexivity.
Qed.

Lemma remainingCount_cons todo state :
  remainingCount (todo :: state)
  = (if todo.(completed) then 0 else 1) + remainingCount state.
Proof. by rewrite !remainingCount_count_open. Qed.

Lemma remainingCount_unmatched (f : Todo → Todo) i state :
  i ∉ ids state →
  remainingCount
    ((λ todo, if decide (todo.(id) = i) then f todo else todo) <$> state)
  = remainingCount state.
Proof. intros Hi. by rewrite fmap_unmatched. Qed.
End ReducerAlgebra.

(** X1: [remove] deletes every task that has the id, also when several
    do, keeps exactly the other tasks in their order, and a second
    [remove] of the same id changes nothing. *)
Theorem remove_deletes_every_match (state : list Todo) (i : jsstring) :
  (i ∉ ids (todoReducer state (remove i))) ∧
  (∀ t, t ∈ todoReducer state (remove i) ↔ t ∈ state ∧ t.(id) ≠ i) ∧
  todoReducer state (remove i) `sublist_of` state ∧
  todoReducer (todoReducer state (remove i)) (remove i)
  = todoReducer state (remove i).
Proof.
  simpl. split; [|split; [|split]].
  - unfold ids. rewrite list_elem_of_fmap.
    intros (t & -> & [Hne _]%list_elem_of_filter). done.
  - intros t. rewrite list_elem_of_filter. tauto.
  - apply sublist_filter.
  - apply list_filter_filter_r. naive_solver.
Qed.

(** X2: an update with the empty partial field set returns the state
    unchanged, whether or not a task has the id. *)
Theorem update_without_fields (state : list Todo) (i : jsstring) :
  todoReducer state (update i no_fields) = state.
Proof.
  simpl. induction state as [|t state IH]; [done|].
  rewrite fmap_cons, IH. f_equal.
  case_decide; [apply spread_no_fields | done].
Qed.

(** X3: two updates of the same id, the first of which carries no [id],
    amount to one update with the two partial field sets merged, the later
    one winning; in particular such an update applied twice is the update
    applied once. *)
Theorem update_composes (state : list Todo) (i : jsstring)
    (first second : PartialTodo) :
  first.(p_id) = None →
  todoReducer (todoReducer state (update i first)) (update i second)
  = todoReducer state (update i (merge first second)) ∧
  todoReducer (todoReducer state (update i first)) (update i first)
  = todoReducer state (update i first).
Proof.
  intros Hfirst.
  assert (∀ data,
    todoReducer (todoReducer state (update i first)) (update i data)
    = todoReducer state (update i (merge first data))) as Hcompose.
  { intros data. simpl. rewrite <- list_fmap_compose.
    apply list_fmap_ext; intros _ t _; simpl.
    destruct (decide (t.(id) = i)) as [Ht|Ht].
    - rewrite decide_True by (simpl; by rewrite Hfirst).
      apply spread_merge.
    - by rewrite decide_False. }
  split; [apply Hcompose|]. rewrite Hcompose. simpl.
  apply list_fmap_ext; intros _ t _; simpl.
  case_decide; [|done]. rewrite <- spread_merge.
  destruct first as [? [?|] [?|] [?|] [?|] [?|]], t; simpl in *;
    by subst.
Qed.

Lemma update_composes_witness :
  todoReducer
    (todoReducer [task "a" false]
       (update (str "a") (mkPartial None (Some (str "x")) None None None None)))
    (update (str "a") (mkPartial None None (Some (str "y")) None None None))
  = todoReducer [task "a" false]
      (update (str "a")
         (merge (mkPartial None (Some (str "x")) None None None None)
            (mkPartial None None (Some (str "y")) None None None))) ∧
  todoReducer
    (todoReducer [task "a" false]
       (update (str "a") (mkPartial None (Some (str "x")) None None None None)))
    (update (str "a") (mkPartial None (Some (str "x")) None None None None))
  = todoReducer [task "a" false]
      (update (str "a") (mkPartial None (Some (str "x")) None None None None)).
Proof.
  apply (update_composes [task "a" false] (str "a")
           (mkPartial None (Some (str "x")) None None None None)
           (mkPartial None None (Some (str "y")) None None None)).
  reflexivity.
Defined.

(** X4: [clearCompleted] leaves the remaining count as it was, and the
    state it returns has exactly that many tasks. *)
Theorem clearCompleted_keeps_remaining (state : list Todo) :
  remainingCount (todoReducer state clearCompleted) = remainingCount state ∧
  length (todoReducer state clearCompleted) = remainingCount state.
Proof.
  split; [|done]. unfold remainingCount. simpl.
  f_equal. apply list_filter_filter_r. naive_solver.
Qed.

(** X5: when ids are pairwise distinct, toggling a task of the state moves
    the remaining count by exactly one: down for a task that was open, up
    for one that was completed. *)
Theorem toggle_moves_remaining (state : list Todo) (todo : Todo) :
  NoDup (ids state) → todo ∈ state →
  remainingCount (todoReducer state (toggle todo.(id)))
  + (if todo.(completed) then 0 else 1)
  = remainingCount state + (if todo.(completed) then 1 else 0).
Proof.
  induction state as [|t state IH]; intros Hnd Hin; [by inv Hin|].
  unfold ids in Hnd. rewrite fmap_cons in Hnd.
  apply NoDup_cons in Hnd as [Hfresh Hnd].
  change (todoReducer (t :: state) (toggle todo.(id)))
    with ((if decide (t.(id) = todo.(id)) then flip_completed t else t)
          :: todoReducer state (toggle todo.(id))).
  rewrite !remainingCount_cons.
  apply elem_of_cons in Hin as [->|Hin].
  - rewrite decide_True by done. simpl.
    rewrite remainingCount_unmatched by done.
    destruct (completed t); simpl; lia.
  - destruct (decide (t.(id) = todo.(id))) as [Heq|_].
    + exfalso. apply Hfresh. rewrite Heq.
      apply list_elem_of_fmap. by exists todo.
    + specialize (IH Hnd Hin). lia.
Qed.

Lemma toggle_moves_remaining_witness :
  remainingCount
    (todoReducer [task "a" false; task "b" true]
       (toggle (task "b" true).(id)))
  + (if (task "b" true).(completed) then 0 else 1)
  = remainingCount [task "a" false; task "b" true]
    + (if (task "b" true).(completed) then 1 else 0).
Proof.
  apply (toggle_moves_remaining [task "a" false; task "b" true]
           (task "b" true)).
  - apply (bool_decide_unpack
             (NoDup (ids [task "a" false; task "b" true]))).
    vm_compute. exact I.
  - apply list_elem_of_further, list_elem_of_here.
Defined.

(** X6: a toggle and a removal commute, whatever their ids, and so do two
    toggles and two removals: the order in which the user clicks them does
    not matter. *)
Theorem toggle_remove_commute (state : list Todo) (i j : jsstring) :
  todoReducer (todoReducer state (toggle i)) (remove j)
  = todoReducer (todoReducer state (remove j)) (toggle i) ∧
  todoReducer (todoReducer state (toggle i)) (toggle j)
  = todoReducer (todoReducer state (toggle j)) (toggle i) ∧
  todoReducer (todoReducer state (remove i)) (remove j)
  = todoReducer (todoReducer state (remove j)) (remove i).
Proof.
  simpl. split; [|split].
  - induction state as [|t state IH]; [done|].
    rewrite fmap_cons, !filter_cons.
    assert ((if decide (t.(id) = i) then flip_completed t else t).(id)
            = t.(id)) as Hid by by case_decide.
    rewrite Hid.
    destruct (decide (t.(id) ≠ j)); [|exact IH]. by rewrite fmap_cons, IH.
  - rewrite <- !list_fmap_compose. apply list_fmap_ext; intros _ t _; simpl.
    repeat (case_decide; simpl in *); done || congruence.
  - rewrite !list_filter_filter. apply list_filter_iff. tauto.
Qed.

(** * Further properties: the forms *)

Section Forms.
Implicit Types (app : App) (w : World) (f : Home.t) (todo t : Todo)
  (text : jsstring) (action : Action) (intent : Intent).

Lemma trim_not_nil text :
  Exists (λ c, is_white_space c = false) text → trim text ≠ [].
Proof.
  intros (c & Hin & Hc)%Exists_exists Hnil%trim_nil.
  rewrite Forall_forall in Hnil. specialize (Hnil c Hin). congruence.
Qed.

Lemma or_undefined_id (date : option jsstring) :
  date ≠ Some [] → or_undefined date = date.
Proof. by destruct date as [[|? ?]|]. Qed.

Lemma or_undefined_not_empty (date : option jsstring) :
  or_undefined date ≠ Some [].
Proof. by destruct date as [[|? ?]|]. Qed.

Lemma handleSubmit_blank uuid now text more date :
  Forall (λ c, is_white_space c = true) text →
  handleSubmit uuid now text more date = None.
Proof. intros Htext%trim_nil. unfold handleSubmit. by rewrite Htext. Qed.

Lemma saveEdit_blank i text more date :
  Forall (λ c, is_white_space c = true) text →
  saveEdit i text more date = None.
Proof. intros Htext%trim_nil. unfold saveEdit. by rewrite Htext. Qed.

Lemma handleSubmit_filled uuid now text more date :
  trim text ≠ [] →
  handleSubmit uuid now text more date
  = Some (add (mkTodo uuid (trim text) (trim more) (or_undefined date)
                 false now)).
Proof. unfold handleSubmit, addTodo. by destruct (trim text). Qed.

Lemma saveEdit_filled i text more date :
  trim text ≠ [] →
  saveEdit i text more date
  = Some (update i (mkPartial None (Some (trim text)) (Some (trim more))
                      (Some (or_undefined date)) None None)).
Proof. unfold saveEdit. by destruct (trim text). Qed.

Lemma submitted_blank f :
  trim f.(Home.title) = [] → Home.submitted f = f.
Proof. unfold Home.submitted. by intros ->. Qed.

Lemma saved_blank f : trim f.(Home.editTitle) = [] → Home.saved f = f.
Proof. unfold Home.saved. by intros ->. Qed.

Lemma writeback_effect_state w : (writeback_effect w).(state) = w.(state).
Proof.
  unfold writeback_effect. destruct (hydrated w); simpl; [|done].
  by destruct (setItem _ _ _).
Qed.

Lemma dispatch_state w action :
  (dispatch w action).(state)
  = if w.(crashed) then w.(state) else todoReducer w.(state) action.
Proof.
  unfold dispatch. destruct (crashed w); [done|].
  by rewrite writeback_effect_state.
Qed.

Lemma well_formed_new uuid now text more date :
  trim text ≠ [] →
  well_formed (mkTodo uuid (trim text) (trim more) (or_undefined date)
                 false now).
Proof.
  intros Htext. repeat split; simpl;
    done || apply trim_trimmed || apply or_undefined_not_empty.
Qed.

Lemma spread_saved todo text more date :
  spread todo (mkPartial None (Some (trim text)) (Some (trim more))
                 (Some (or_undefined date)) None None)
  = edited todo text more date.
Proof. done. Qed.

Lemma well_formed_edited todo text more date :
  trim text ≠ [] → well_formed (edited todo text more date).
Proof.
  intros Htext. repeat split; simpl;
    done || apply trim_trimmed || apply or_undefined_not_empty.
Qed.

Lemma edited_unchanged todo :
  well_formed todo →
  edited todo todo.(title) todo.(notes) todo.(dueDate) = todo.
Proof.
  intros (Htitle & Htrimmed & Hnotes & Hdate). destruct todo; simpl in *.
  unfold edited; simpl. by rewrite !trim_id, or_undefined_id.
Qed.

(** With distinct ids, a task of the state is the only one with its id. *)
Lemma NoDup_ids_eq (state : list Todo) todo t :
  NoDup (ids state) → todo ∈ state → t ∈ state → t.(id) = todo.(id) →
  t = todo.
Proof.
  induction state as [|x state IH]; intros Hnd Htodo Ht Hid; [by inv Ht|].
  unfold ids in Hnd. rewrite fmap_cons in Hnd.
  apply NoDup_cons in Hnd as [Hfresh Hnd].
  apply elem_of_cons in Htodo as [->|Htodo], Ht as [->|Ht]; [done|..].
  - exfalso. apply Hfresh. rewrite <- Hid. apply list_elem_of_fmap; eauto.
  - exfalso. apply Hfresh. rewrite Hid. apply list_elem_of_fmap; eauto.
  - by apply IH.
Qed.

(** The action of an intent, when there is one, keeps tasks well formed. *)
Lemma intent_action_well_formed f intent action (state : list Todo) :
  intent_action f intent = Some action →
  Forall well_formed state → Forall well_formed (todoReducer state action).
Proof.
  destruct intent; simpl; try discriminate.
  - unfold handleSubmit, addTodo.
    destruct (trim f.(Home.title)) eqn:Htitle; [discriminate|].
    intros [= <-] Hstate. simpl. apply Forall_cons. split; [|done].
    rewrite <- Htitle. apply well_formed_new. by rewrite Htitle.
  - intros [= <-] Hstate. simpl. apply Forall_fmap.
    eapply Forall_impl; [done|]. intros t Ht; simpl.
    case_decide; [|done]. by destruct t.
  - intros [= <-] Hstate. simpl.
    eapply Forall_forall. intros t [_ Ht]%list_elem_of_filter.
    by eapply Forall_forall in Hstate.
  - intros [= <-] Hstate. simpl.
    eapply Forall_forall. intros t [_ Ht]%list_elem_of_filter.
    by eapply Forall_forall in Hstate.
  - unfold saveEdit.
    destruct (trim f.(Home.editTitle)) eqn:Htitle; [discriminate|].
    intros [= <-] Hstate. simpl. apply Forall_fmap.
    eapply Forall_impl; [done|]. intros t Ht; simpl.
    case_decide; [|done]. rewrite <- Htitle, spread_saved.
    apply well_formed_edited. by rewrite Htitle.
Qed.

Lemma perform_well_formed app intent :
  Forall well_formed app.(world).(state) →
  Forall well_formed (perform app intent).(world).(state).
Proof.
  intros Hstate. unfold perform.
  destruct (crashed (world app)) eqn:Hcrashed; [done|]. simpl.
  destruct (intent_action (form app) intent) as [action|] eqn:Haction;
    [|done].
  rewrite dispatch_state, Hcrashed.
  by eapply intent_action_well_formed.
Qed.
End Forms.

(** X7: a title made of white space only is rejected by both forms:
    submitting the new-task form, or saving an edit, with such a title
    dispatches nothing and leaves every input as it is (the edit stays
    open). *)
Theorem blank_title_is_rejected (text : jsstring) :
  Forall (λ c, is_white_space c = true) text →
  ∀ app uuid now i,
    (app.(form).(Home.title) = text →
     perform app (SubmitForm uuid now) = app) ∧
    (app.(form).(Home.editTitle) = text →
     perform app (ClickSave i) = app).
Proof.
  intros Htext [f w] uuid now i. unfold perform; simpl.
  destruct (crashed w); [done|].
  split; intros <-.
  - rewrite handleSubmit_blank, submitted_blank
      by (done || by apply trim_nil).
    done.
  - rewrite saveEdit_blank, saved_blank by (done || by apply trim_nil).
    done.
Qed.

Lemma blank_title_is_rejected_witness :
  let app :=
    foldl perform sample_app
      [TypeTitle [32; 9; 160]%N; ClickEdit task_plain;
       TypeEditTitle [32; 9; 160]%N] in
  perform app (SubmitForm (str "u1") (str "now")) = app ∧
  perform app (ClickSave (str "a")) = app.
Proof.
  destruct (blank_title_is_rejected [32; 9; 160]%N
              ltac:(repeat constructor)
              (foldl perform sample_app
                 [TypeTitle [32; 9; 160]%N; ClickEdit task_plain;
                  TypeEditTitle [32; 9; 160]%N])
              (str "u1") (str "now") (str "a")) as [Hsubmit Hsave].
  split; [apply Hsubmit | apply Hsave]; reflexivity.
Defined.

(** X8: submitting the form with a title that has a character other than
    white space puts one new task in front of the others: it has the id
    and the time the platform supplied, the trimmed title and notes, the
    due date picked (none for an empty pick), and is open; the three
    inputs of the form are reset, and the remaining count grows by one. *)
Theorem submit_adds_task (app : App) (uuid now : jsstring) :
  Exists (λ c, is_white_space c = false) app.(form).(Home.title) →
  app.(world).(crashed) = false →
  let app' := perform app (SubmitForm uuid now) in
  let f := app.(form) in
  app'.(world).(state)
  = mkTodo uuid (trim f.(Home.title)) (trim f.(Home.notes))
      (or_undefined f.(Home.dueDate)) false now
    :: app.(world).(state) ∧
  well_formed
    (mkTodo uuid (trim f.(Home.title)) (trim f.(Home.notes))
       (or_undefined f.(Home.dueDate)) false now) ∧
  app'.(form).(Home.title) = [] ∧ app'.(form).(Home.notes) = [] ∧
  app'.(form).(Home.dueDate) = None ∧
  remainingCount app'.(world).(state)
  = S (remainingCount app.(world).(state)).
Proof.
  intros Htitle%trim_not_nil Hcrashed app' f. subst app' f.
  destruct app as [f w]; simpl in *. unfold perform; simpl.
  rewrite Hcrashed. simpl.
  rewrite handleSubmit_filled by done. rewrite dispatch_state, Hcrashed.
  simpl. split; [done|]. split; [by apply well_formed_new|].
  unfold Home.submitted. by destruct (trim f.(Home.title)).
Qed.

Lemma submit_adds_task_witness :
  let app := perform sample_app (TypeTitle (str " Call Ann ")) in
  let app' := perform app (SubmitForm (str "u1") (str "now")) in
  let f := app.(form) in
  app'.(world).(state)
  = mkTodo (str "u1") (trim f.(Home.title)) (trim f.(Home.notes))
      (or_undefined f.(Home.dueDate)) false (str "now")
    :: app.(world).(state) ∧
  well_formed
    (mkTodo (str "u1") (trim f.(Home.title)) (trim f.(Home.notes))
       (or_undefined f.(Home.dueDate)) false (str "now")) ∧
  app'.(form).(Home.title) = [] ∧ app'.(form).(Home.notes) = [] ∧
  app'.(form).(Home.dueDate) = None ∧
  remainingCount app'.(world).(state)
  = S (remainingCount app.(world).(state)).
Proof.
  apply (submit_adds_task
           (perform sample_app (TypeTitle (str " Call Ann ")))
           (str "u1") (str "now")).
  - apply Exists_cons_tl, Exists_cons_hd. reflexivity.
  - reflexivity.
Defined.

(** X9: saving an edit whose title has a character other than white space
    closes the edit and rewrites every task that has the id: it gets the
    trimmed title and notes and the due date picked (none for an empty
    pick) and keeps its id, its [completed] flag and its creation time;
    all other tasks stay as they are, in place. *)
Theorem save_rewrites_task (app : App) (i : jsstring) :
  Exists (λ c, is_white_space c = false) app.(form).(Home.editTitle) →
  app.(world).(crashed) = false →
  let app' := perform app (ClickSave i) in
  let f := app.(form) in
  app'.(world).(state)
  = (λ todo,
       if decide (todo.(id) = i)
       then edited todo f.(Home.editTitle) f.(Home.editNotes)
              f.(Home.editDueDate)
       else todo) <$> app.(world).(state) ∧
  app'.(form) = Home.cancelEdit f ∧
  app'.(form).(Home.editingId) = None.
Proof.
  intros Htitle%trim_not_nil Hcrashed app' f. subst app' f.
  destruct app as [f w]; simpl in *. unfold perform; simpl.
  rewrite Hcrashed. simpl.
  rewrite saveEdit_filled by done. rewrite dispatch_state, Hcrashed.
  split; [done|]. unfold Home.saved.
  by destruct (trim f.(Home.editTitle)).
Qed.

Lemma save_rewrites_task_witness :
  let app := perform (perform sample_app (ClickEdit task_plain))
               (TypeEditTitle (str "Buy oat milk ")) in
  let app' := perform app (ClickSave (str "a")) in
  let f := app.(form) in
  app'.(world).(state)
  = (λ todo,
       if decide (todo.(id) = str "a")
       then edited todo f.(Home.editTitle) f.(Home.editNotes)
              f.(Home.editDueDate)
       else todo) <$> app.(world).(state) ∧
  app'.(form) = Home.cancelEdit f ∧
  app'.(form).(Home.editingId) = None.
Proof.
  apply (save_rewrites_task
           (perform (perform sample_app (ClickEdit task_plain))
              (TypeEditTitle (str "Buy oat milk ")))
           (str "a")).
  - apply Exists_cons_hd. reflexivity.
  - reflexivity.
Defined.

(** X10: opening the edit of a well-formed task of the state and saving it
    without a change leaves the state as it was, when ids are pairwise
    distinct, and closes the edit. *)
Theorem edit_and_save_unchanged (app : App) (todo : Todo) :
  well_formed todo → todo ∈ app.(world).(state) →
  NoDup (ids app.(world).(state)) → app.(world).(crashed) = false →
  let app' := perform (perform app (ClickEdit todo)) (ClickSave todo.(id)) in
  app'.(world).(state) = app.(world).(state) ∧
  app'.(form) = Home.cancelEdit app.(form).
Proof.
  intros Hwf Hin Hnd Hcrashed app'. subst app'.
  destruct app as [f w], todo as [i0 t0 n0 d0 c0 a0]; simpl in *.
  pose proof Hwf as (Htitle & Htrimmed & _).
  simpl in Htitle, Htrimmed.
  unfold perform; simpl. rewrite Hcrashed. simpl. rewrite Hcrashed. simpl.
  rewrite saveEdit_filled by by rewrite trim_id.
  rewrite dispatch_state, Hcrashed.
  split.
  - simpl. rewrite <- (list_fmap_id (state w)) at 2.
    apply list_fmap_ext; intros _ t Ht%list_elem_of_lookup_2; simpl.
    case_decide as Hid; [|done].
    rewrite (NoDup_ids_eq (state w) (mkTodo i0 t0 n0 d0 c0 a0) t) by done.
    rewrite spread_saved. by apply (edited_unchanged (mkTodo _ _ _ _ _ _)).
  - unfold Home.saved, Home.cancelEdit; simpl.
    rewrite trim_id by done. by destruct t0.
Qed.

Lemma edit_and_save_unchanged_witness :
  let app' := perform (perform sample_app (ClickEdit task_dated))
                (ClickSave task_dated.(id)) in
  app'.(world).(state) = sample_app.(world).(state) ∧
  app'.(form) = Home.cancelEdit sample_app.(form).
Proof.
  apply (edit_and_save_unchanged sample_app task_dated).
  - repeat split; vm_compute; congruence.
  - apply list_elem_of_further, list_elem_of_here.
  - apply (bool_decide_unpack (NoDup (ids sample_app.(world).(state)))).
    vm_compute. exact I.
  - reflexivity.
Defined.

(** X11: whatever the user does, in any order, tasks stay well formed:
    if every task of the state has a non-empty trimmed title, trimmed
    notes and a due date that is absent or non-empty, so has every task
    after any sequence of intents. *)
Theorem intents_keep_tasks_well_formed (app : App) (intents : list Intent) :
  Forall well_formed app.(world).(state) →
  Forall well_formed (foldl perform app intents).(world).(state).
Proof.
  revert app. induction intents as [|intent intents IH]; intros app Happ;
    [done|].
  simpl. by apply IH, perform_well_formed.
Qed.

Lemma intents_keep_tasks_well_formed_witness :
  Forall well_formed
    (foldl perform (mkApp Home.initial (mkWorld [] true
                                          (mkStorage ∅ false false) [] false))
       [TypeTitle (str "  Pay rent "); TypeNotes (str " by Friday ");
        PickDueDate []; SubmitForm (str "u1") (str "t1");
        ClickEdit task_plain; TypeEditTitle (str "   ");
        ClickSave (str "u1"); TypeEditTitle (str " Pay the rent ");
        ClickSave (str "u1"); ClickToggle (str "u1")]).(world).(state).
Proof.
  apply (intents_keep_tasks_well_formed
    (mkApp Home.initial (mkWorld [] true (mkStorage ∅ false false) [] false))).
  simpl. apply Forall_nil_2.
Defined.



(** * Further properties: sessions *)

Section Sessions.
Implicit Types (st : Storage) (w : World) (action : Action)
  (actions : list Action) (events : list Event).

#[local] Arguments JSON_parse : simpl never.
#[local] Arguments as_todos : simpl never.
#[local] Arguments JSON_stringify : simpl never.

(** A crashed component ignores every intent. *)
Lemma foldl_dispatch_crashed actions w :
  w.(crashed) = true → foldl dispatch w actions = w.
Proof.
  intros Hw. induction actions as [|action actions IH]; [done|].
  simpl. unfold dispatch at 2. by rewrite Hw.
Qed.

Lemma dispatch_world w action :
  w.(hydrated) = true → w.(crashed) = false →
  (dispatch w action).(hydrated) = true
  ∧ (dispatch w action).(crashed) = w.(storage).(setItem_throws)
  ∧ (dispatch w action).(storage).(setItem_throws)
    = w.(storage).(setItem_throws)
  ∧ (dispatch w action).(storage).(getItem_throws)
    = w.(storage).(getItem_throws)
  ∧ writes (dispatch w action).(trace) = S (writes w.(trace))
  ∧ (∀ key, key ≠ STORAGE_KEY →
       (dispatch w action).(storage).(items) !! key
       = w.(storage).(items) !! key).
Proof.
  intros Hw Hc. rewrite dispatch_after_latch by done. simpl.
  repeat split.
  - by destruct (setItem_throws (storage w)) eqn:Hthrows.
  - by destruct (setItem_throws (storage w)).
  - unfold writes. rewrite filter_app, length_app. simpl. lia.
  - intros key Hkey. destruct (setItem_throws (storage w)); [done|].
    simpl. by apply lookup_insert_ne.
Qed.

(** What a run of intents does to a component that has started. *)
Lemma foldl_dispatch_world actions w :
  w.(hydrated) = true →
  let w' := foldl dispatch w actions in
  w'.(storage).(getItem_throws) = w.(storage).(getItem_throws)
  ∧ w'.(storage).(setItem_throws) = w.(storage).(setItem_throws)
  ∧ (∀ key, key ≠ STORAGE_KEY →
       w'.(storage).(items) !! key = w.(storage).(items) !! key)
  ∧ (w'.(crashed) = false →
     w.(crashed) = false
     ∧ w'.(state) = foldl todoReducer w.(state) actions
     ∧ writes w'.(trace) = writes w.(trace) + length actions).
Proof.
  revert w. induction actions as [|action actions IH]; intros w Hw; simpl.
  { repeat split; done || lia. }
  destruct (crashed w) eqn:Hc.
  { unfold dispatch at 2 4 6 8 10 12. rewrite Hc.
    rewrite foldl_dispatch_crashed by done.
    repeat split; congruence. }
  destruct (dispatch_world w action Hw Hc)
    as (Hh & _ & Hset & Hget & Hwrites & Hkeys).
  destruct (IH (dispatch w action) Hh) as (Hget' & Hset' & Hkeys' & Hrun).
  split; [congruence|]. split; [congruence|].
  split. { intros key Hkey. by rewrite Hkeys', Hkeys. }
  intros Hfinal. destruct (Hrun Hfinal) as (_ & Hstate & Hcount).
  split; [done|]. rewrite Hstate, Hcount, Hwrites, dispatch_state, Hc.
  split; [done | lia].
Qed.

(** Startup from a storage that holds the serialization of [loaded]. *)
Lemma mount_of_stringify st (loaded : list Todo) :
  st.(getItem_throws) = false →
  st.(items) !! STORAGE_KEY = Some (JSON_stringify loaded) →
  ∃ w, mount st = Some w ∧ w.(state) = loaded
       ∧ w.(crashed) = st.(setItem_throws)
       ∧ (st.(setItem_throws) = false → w.(storage) = st).
Proof.
  intros Hget Hitems.
  assert (hydration_effect st
          = Some ([Dispatched (hydrate loaded); HydratedSet true], Normal ()))
    as Heffect.
  { rewrite hydration_effect_cases, Hget, Hitems.
    rewrite JSON_parse_stringify, as_todos_values.
    by destruct (stringify_nonempty loaded) as [text ->]. }
  unfold mount. rewrite Heffect. simpl. eexists. split; [done|].
  unfold writeback_effect, setItem; simpl.
  destruct (setItem_throws st) eqn:Hset; simpl; [done|].
  split; [done|]. split; [done|].
  intros _. destruct st as [m g t]; simpl in *. subst.
  f_equal. by apply insert_id.
Qed.

(** A session is a startup followed by a run of intents. *)
Lemma session_world st actions w :
  session st actions = Some w →
  ∃ w0, mount st = Some w0 ∧ w = foldl dispatch w0 actions
        ∧ w0.(hydrated) = true
        ∧ w0.(crashed) = st.(setItem_throws)
        ∧ w0.(storage).(getItem_throws) = st.(getItem_throws)
        ∧ w0.(storage).(setItem_throws) = st.(setItem_throws)
        ∧ writes w0.(trace) = 1
        ∧ (∀ key, key ≠ STORAGE_KEY →
             w0.(storage).(items) !! key = st.(items) !! key).
Proof.
  unfold session. destruct (mount st) as [w0|] eqn:Hmount; [|discriminate].
  simpl. intros [= <-]. exists w0. split; [done|]. split; [done|].
  apply mount_world in Hmount as (events & loaded & _ & Hevents & ->).
  simpl. split; [done|]. split; [done|].
  split; [by destruct (setItem_throws st)|].
  split; [by destruct (setItem_throws st) eqn:E|].
  split.
  - unfold writes. rewrite filter_app, length_app. simpl.
    replace (filter (λ e, is_write e) events) with (@nil Event); [done|].
    symmetry. clear -Hevents.
    induction Hevents as [|e events He _ IH]; [done|].
    rewrite filter_cons_False; [done|]. rewrite He. simpl. tauto.
  - intros key Hkey. destruct (setItem_throws st); [done|].
    simpl. by apply lookup_insert_ne.
Qed.
End Sessions.

(** X13: closing the page and opening it again restores the tasks: after
    any session that has not crashed, on a storage that can be read, a
    new startup from the storage the session leaves behind loads exactly
    the state the session ended with, and leaves that storage as it is. *)
Theorem reopening_restores_state (st : Storage) (actions : list Action)
    (w : World) :
  session st actions = Some w → w.(crashed) = false →
  st.(getItem_throws) = false →
  ∃ w', mount w.(storage) = Some w' ∧ w'.(state) = w.(state)
        ∧ w'.(storage) = w.(storage) ∧ w'.(crashed) = false.
Proof.
  intros Hsession Hcrashed Hget.
  pose proof (session_spec st actions w Hsession) as (_ & _ & Hmirrored).
  specialize (Hmirrored Hcrashed).
  apply session_world in Hsession
    as (w0 & _ & -> & Hh & Hc0 & Hget0 & Hset0 & _).
  destruct (foldl_dispatch_world actions w0 Hh)
    as (Hget' & Hset' & _ & Hrun).
  destruct (Hrun Hcrashed) as (Hw0 & _).
  set (w := foldl dispatch w0 actions) in *.
  assert (w.(storage).(setItem_throws) = false) as Hset by congruence.
  destruct (mount_of_stringify w.(storage) w.(state))
    as (w' & Hmount & Hstate & Hc' & Hst'); [congruence | done |].
  exists w'. repeat split; [done | done | by apply Hst' | congruence].
Qed.

Lemma reopening_restores_state_witness :
  ∃ w w',
    session (storage_holding (JSON_stringify [task_plain; task_dated]))
      [toggle (str "a"); remove (str "b")] = Some w
    ∧ mount w.(storage) = Some w' ∧ w'.(state) = w.(state)
    ∧ w'.(storage) = w.(storage) ∧ w'.(crashed) = false.
Proof.
  eexists.
  assert (session (storage_holding (JSON_stringify [task_plain; task_dated]))
            [toggle (str "a"); remove (str "b")] = Some _) as Hsession
    by (vm_compute; reflexivity).
  destruct (reopening_restores_state _ _ _ Hsession eq_refl eq_refl)
    as (w' & Hw'). by exists w'.
Defined.

(** X14: a session touches one storage key only: whatever happens, every
    other key of the storage holds at the end what it held at the start,
    or is still missing. *)
Theorem other_keys_untouched (st : Storage) (actions : list Action)
    (w : World) (key : jsstring) :
  session st actions = Some w → key ≠ STORAGE_KEY →
  w.(storage).(items) !! key = st.(items) !! key.
Proof.
  intros (w0 & _ & -> & Hh & _ & _ & _ & _ & Hkeys0)%session_world Hkey.
  destruct (foldl_dispatch_world actions w0 Hh) as (_ & _ & Hkeys & _).
  by rewrite Hkeys, Hkeys0.
Qed.

Lemma other_keys_untouched_witness :
  ∃ w,
    session (mkStorage {[ str "theme" := str "dark" ]} false false)
      [add task_plain] = Some w
    ∧ w.(storage).(items) !! str "theme"
      = (mkStorage {[ str "theme" := str "dark" ]} false false).(items)
        !! str "theme".
Proof.
  eexists. split; [vm_compute; reflexivity|].
  apply (other_keys_untouched
           (mkStorage {[ str "theme" := str "dark" ]} false false)
           [add task_plain]).
  - vm_compute. reflexivity.
  - vm_compute. discriminate.
Defined.

(** X15: on a storage that rejects writes the component does not survive
    startup: the first write-back, issued once, throws outside any [try];
    the storage is never modified, and no later intent has any effect. *)
Theorem rejected_write_crashes_startup (st : Storage)
    (actions : list Action) (w : World) :
  session st actions = Some w → st.(setItem_throws) = true →
  w.(crashed) = true ∧ w.(storage) = st ∧ mount st = Some w
  ∧ writes w.(trace) = 1.
Proof.
  intros (w0 & Hmount & -> & _ & Hc0 & _ & _ & Hwrites & _)%session_world
    Hset.
  rewrite foldl_dispatch_crashed by congruence.
  split; [congruence|]. split; [|done].
  apply mount_world in Hmount as (events & loaded & _ & _ & ->).
  simpl. by rewrite Hset.
Qed.

Lemma rejected_write_crashes_startup_witness :
  ∃ w,
    session (mkStorage ∅ false true) [add task_plain; toggle (str "a")]
    = Some w
    ∧ w.(crashed) = true ∧ w.(storage) = mkStorage ∅ false true
    ∧ mount (mkStorage ∅ false true) = Some w ∧ writes w.(trace) = 1.
Proof.
  eexists. split; [vm_compute; reflexivity|].
  apply (rejected_write_crashes_startup (mkStorage ∅ false true)
           [add task_plain; toggle (str "a")]).
  - vm_compute. reflexivity.
  - reflexivity.
Defined.

(** X16: in a session that has not crashed the storage is written once at
    startup and once for every intent, no more and no less, and the state
    at the end is the state loaded at startup with the transitions applied
    in the order of the intents. *)
Theorem one_write_per_transition (st : Storage) (actions : list Action)
    (w : World) :
  session st actions = Some w → w.(crashed) = false →
  writes w.(trace) = S (length actions) ∧
  ∃ w0, mount st = Some w0
        ∧ w.(state) = foldl todoReducer w0.(state) actions.
Proof.
  intros (w0 & Hmount & -> & Hh & _ & _ & _ & Hwrites & _)%session_world
    Hcrashed.
  destruct (foldl_dispatch_world actions w0 Hh) as (_ & _ & _ & Hrun).
  destruct (Hrun Hcrashed) as (_ & Hstate & Hcount).
  split; [lia|]. by exists w0.
Qed.

Lemma one_write_per_transition_witness :
  ∃ w,
    session (mkStorage ∅ false false)
      [add task_plain; toggle (str "a"); clearCompleted] = Some w
    ∧ writes w.(trace)
      = S (length [add task_plain; toggle (str "a"); clearCompleted])
    ∧ ∃ w0, mount (mkStorage ∅ false false) = Some w0
            ∧ w.(state)
              = foldl todoReducer w0.(state)
                  [add task_plain; toggle (str "a"); clearCompleted].
Proof.
  eexists. split; [vm_compute; reflexivity|].
  apply (one_write_per_transition (mkStorage ∅ false false)
           [add task_plain; toggle (str "a"); clearCompleted]).
  - vm_compute. reflexivity.
  - reflexivity.
Defined.

(** X17: startup logs to the console exactly when the read of the storage
    throws or a non-empty stored text is not JSON, and then once; a missing
    value and an empty stored text are taken as "nothing stored" without a
    word. *)
Theorem startup_logs_failures_only (st : Storage) (w : World) :
  mount st = Some w →
  (Exists (λ e, is_console_error e) w.(trace)
   ↔ st.(getItem_throws) = true ∨ unreadable st)
  ∧ length (filter (λ e, is_console_error e) w.(trace)) ≤ 1.
Proof.
  intros (events & loaded & Heffect & _ & ->)%mount_world. simpl.
  rewrite hydration_effect_cases in Heffect.
  rewrite Exists_app, filter_app, length_app. unfold unreadable.
  destruct (getItem_throws st).
  { injection Heffect as <-. split; [|simpl; lia].
    split; [by left|]. intros _. left. by apply Exists_cons_hd. }
  destruct (items st !! STORAGE_KEY) as [[|c text]|] eqn:Hitems.
  - injection Heffect as <-. split; [|simpl; lia]. split.
    + intros [H|H]; repeat (apply Exists_cons in H as [H|H]; [done|]);
        by apply Exists_nil in H.
    + intros [?|(text & Htext & [= <-] & _)]; done.
  - destruct (JSON_parse (c :: text)) as [value|e] eqn:Hparse.
    + destruct (as_todos value); [|discriminate].
      injection Heffect as <-. split; [|simpl; lia]. split.
      * intros [H|H]; repeat (apply Exists_cons in H as [H|H]; [done|]);
          by apply Exists_nil in H.
      * intros [?|(text' & _ & [= <-] & Hthrow)]; [done|congruence].
    + injection Heffect as <-. split; [|simpl; lia].
      split; [|intros _; left; by apply Exists_cons_hd].
      intros _. right. exists (c :: text).
      apply JSON_parse_Throw in Hparse as Hsyntax. destruct Hsyntax as [-> _].
      done.
  - injection Heffect as <-. split; [|simpl; lia]. split.
    + intros [H|H]; repeat (apply Exists_cons in H as [H|H]; [done|]);
        by apply Exists_nil in H.
    + intros [?|(text & _ & [=] & _)]; done.
Qed.

Lemma startup_logs_failures_only_witness :
  ∃ w,
    mount (storage_holding (str "{oops")) = Some w
    ∧ (Exists (λ e, is_console_error e) w.(trace)
       ↔ (storage_holding (str "{oops")).(getItem_throws) = true
         ∨ unreadable (storage_holding (str "{oops")))
    ∧ length (filter (λ e, is_console_error e) w.(trace)) ≤ 1.
Proof.
  eexists. split; [vm_compute; reflexivity|].
  apply (startup_logs_failures_only (storage_holding (str "{oops"))).
  vm_compute. reflexivity.
Defined.

(** X18: no two states share a serialization: states that are written as
    the same text are the same state. *)
Theorem JSON_stringify_injective (state1 state2 : list Todo) :
  JSON_stringify state1 = JSON_stringify state2 → state1 = state2.
Proof.
  intros Htext.
  pose proof (JSON_parse_stringify state1) as H1.
  rewrite Htext, JSON_parse_stringify in H1. injection H1 as Hvalues.
  pose proof (as_todos_values state1) as H2.
  rewrite <- Hvalues, as_todos_values in H2. by injection H2.
Qed.

Lemma JSON_stringify_injective_witness : [task_plain] = [task_plain].
Proof.
  apply (JSON_stringify_injective [task_plain] [task_plain]). reflexivity.
Defined.

(** * Further properties: the views *)

Section Views.
Variable toLowerCase : jsstring → jsstring.
Implicit Types (todos : list Todo) (todo : Todo) (fltr : Filter.t)
  (query nq : jsstring).

Lemma shown_active nq todo :
  shown toLowerCase Filter.active nq todo
  ↔ negb todo.(completed) ∧ shown toLowerCase Filter.all nq todo.
Proof. unfold shown. destruct (completed todo); simpl; tauto. Qed.

Lemma shown_completed nq todo :
  shown toLowerCase Filter.completed nq todo
  ↔ todo.(completed) ∧ shown toLowerCase Filter.all nq todo.
Proof. unfold shown. destruct (completed todo); simpl; tauto. Qed.

Lemma shown_no_query fltr todo :
  shown toLowerCase fltr [] todo ↔ passes fltr todo.
Proof.
  unfold shown, passes.
  destruct fltr, (completed todo); simpl; intuition congruence.
Qed.

Lemma filter_all (A : Type) (P : A → Prop) `{!∀ x, Decision (P x)}
    (l : list A) :
  (∀ x, P x) → filter P l = l.
Proof.
  intros HP. induction l as [|x l IH]; [done|].
  by rewrite filter_cons_True, IH.
Qed.

Lemma filter_none (A : Type) (P : A → Prop) `{!∀ x, Decision (P x)}
    (l : list A) :
  (∀ x, ¬ P x) → filter P l = [].
Proof.
  intros HP. induction l as [|x l IH]; [done|].
  by rewrite filter_cons_False.
Qed.

Lemma filter_split_length (P : Todo → Prop) `{!∀ x, Decision (P x)} todos :
  length (filter (λ t, negb t.(completed)) (filter P todos))
  + length (filter (λ t, t.(completed)) (filter P todos))
  = length (filter P todos).
Proof.
  induction (filter P todos) as [|t l IH]; [done|].
  rewrite !filter_cons. destruct (completed t); simpl; lia.
Qed.
End Views.

(** X19: a query of white space only is no query: the view then holds
    exactly the tasks that pass the filter setting, and with the setting
    "all" it is the whole list.  ([toLowerCase] maps the empty string to
    the empty string.) *)
Theorem blank_query_filters_by_status (toLowerCase : jsstring → jsstring)
    (todos : list Todo) (fltr : Filter.t) (query : jsstring) :
  Forall (λ c, is_white_space c = true) query → toLowerCase [] = [] →
  (∀ todo, todo ∈ filteredTodos toLowerCase todos fltr query
           ↔ todo ∈ todos ∧ passes fltr todo) ∧
  filteredTodos toLowerCase todos Filter.all query = todos.
Proof.
  intros Hquery%trim_nil Hlower. unfold filteredTodos.
  rewrite Hquery, Hlower. split.
  - intros todo. rewrite list_elem_of_filter, shown_no_query. tauto.
  - apply filter_all. intros todo. by apply shown_no_query.
Qed.

Lemma blank_query_filters_by_status_witness :
  (∀ todo,
     todo ∈ filteredTodos ascii_toLowerCase [task_plain; task_dated]
              Filter.active (str "  ")
     ↔ todo ∈ [task_plain; task_dated] ∧ passes Filter.active todo) ∧
  filteredTodos ascii_toLowerCase [task_plain; task_dated] Filter.all
    (str "  ")
  = [task_plain; task_dated].
Proof.
  apply (blank_query_filters_by_status ascii_toLowerCase
           [task_plain; task_dated] Filter.active (str "  ")).
  - repeat constructor.
  - reflexivity.
Defined.

(** X20: for any query, the "active" view and the "completed" view are
    the open and the completed tasks of the "all" view, so together they
    have as many tasks as the "all" view and no task in common. *)
Theorem views_partition (toLowerCase : jsstring → jsstring)
    (todos : list Todo) (query : jsstring) :
  let view := filteredTodos toLowerCase todos in
  view Filter.active query
  = filter (λ t, negb t.(completed)) (view Filter.all query) ∧
  view Filter.completed query
  = filter (λ t, t.(completed)) (view Filter.all query) ∧
  length (view Filter.active query) + length (view Filter.completed query)
  = length (view Filter.all query).
Proof.
  intros view. subst view. unfold filteredTodos.
  assert (filter (λ todo, shown toLowerCase Filter.active
                            (toLowerCase (trim query)) todo) todos
          = filter (λ t, negb t.(completed))
              (filter (λ todo, shown toLowerCase Filter.all
                                 (toLowerCase (trim query)) todo) todos))
    as ->.
  { rewrite list_filter_filter. apply list_filter_iff. intros t.
    apply shown_active. }
  assert (filter (λ todo, shown toLowerCase Filter.completed
                            (toLowerCase (trim query)) todo) todos
          = filter (λ t, t.(completed))
              (filter (λ todo, shown toLowerCase Filter.all
                                 (toLowerCase (trim query)) todo) todos))
    as ->.
  { rewrite list_filter_filter. apply list_filter_iff. intros t.
    apply shown_completed. }
  split; [done|]. split; [done|]. apply filter_split_length.
Qed.

(** X21: deleting a task and clearing the completed ones commute with
    viewing: the view of the new state is the old view with the same tasks
    taken out.  After clearing, the "completed" view is empty and the
    "active" view is what it was. *)
Theorem views_follow_removals (toLowerCase : jsstring → jsstring)
    (todos : list Todo) (fltr : Filter.t) (query : jsstring)
    (i : jsstring) :
  let view := filteredTodos toLowerCase in
  view (todoReducer todos (remove i)) fltr query
  = todoReducer (view todos fltr query) (remove i) ∧
  view (todoReducer todos clearCompleted) fltr query
  = todoReducer (view todos fltr query) clearCompleted ∧
  view (todoReducer todos clearCompleted) Filter.completed query = [] ∧
  view (todoReducer todos clearCompleted) Filter.active query
  = view todos Filter.active query.
Proof.
  intros view. subst view. unfold filteredTodos. simpl.
  split; [|split; [|split]].
  - rewrite !list_filter_filter. apply list_filter_iff. tauto.
  - rewrite !list_filter_filter. apply list_filter_iff. tauto.
  - rewrite list_filter_filter. apply filter_none. intros t.
    rewrite shown_completed. destruct (completed t); simpl; tauto.
  - rewrite list_filter_filter. apply list_filter_iff. intros t.
    rewrite shown_active. tauto.
Qed.

(** * Further properties: intents on tasks that are gone or new *)

(** X22: saving the edit of a task that is no longer in the state (it was
    cleared while the edit was open) changes no task, and still closes the
    edit. *)
Theorem save_after_task_is_gone (app : App) (i : jsstring) :
  i ∉ ids app.(world).(state) →
  Exists (λ c, is_white_space c = false) app.(form).(Home.editTitle) →
  app.(world).(crashed) = false →
  (perform app (ClickSave i)).(world).(state) = app.(world).(state) ∧
  (perform app (ClickSave i)).(form) = Home.cancelEdit app.(form).
Proof.
  intros Hgone Htitle%trim_not_nil Hcrashed.
  destruct app as [f w]; simpl in *. unfold perform; simpl.
  rewrite Hcrashed. simpl.
  rewrite saveEdit_filled by done. rewrite dispatch_state, Hcrashed.
  split.
  - by apply (fmap_unmatched (λ t, spread t _)).
  - unfold Home.saved. by destruct (trim f.(Home.editTitle)).
Qed.

Lemma save_after_task_is_gone_witness :
  let app :=
    foldl perform sample_app
      [ClickEdit task_dated; ClickClearCompleted] in
  (perform app (ClickSave (str "b"))).(world).(state) = app.(world).(state)
  ∧ (perform app (ClickSave (str "b"))).(form) = Home.cancelEdit app.(form).
Proof.
  apply (save_after_task_is_gone
           (foldl perform sample_app
              [ClickEdit task_dated; ClickClearCompleted])
           (str "b")).
  - apply (bool_decide_unpack
             (str "b" ∉ ids (foldl perform sample_app
                               [ClickEdit task_dated; ClickClearCompleted])
                              .(world).(state))).
    vm_compute. exact I.
  - apply Exists_cons_hd. reflexivity.
  - reflexivity.
Defined.

(** X23: adding a task whose id no task of the state has and then
    deleting it gives back the state; toggling it in between makes no
    difference. *)
Theorem add_then_remove (state : list Todo) (todo : Todo) :
  todo.(id) ∉ ids state →
  todoReducer (todoReducer state (add todo)) (remove todo.(id)) = state ∧
  todoReducer
    (todoReducer (todoReducer state (add todo)) (toggle todo.(id)))
    (remove todo.(id))
  = state.
Proof.
  intros Hfresh. simpl. rewrite decide_True by done.
  rewrite !filter_cons_False by (simpl; tauto).
  rewrite (fmap_unmatched flip_completed) by done.
  by rewrite filter_unmatched.
Qed.

Lemma add_then_remove_witness :
  todoReducer (todoReducer [task_plain] (add task_dated))
    (remove task_dated.(id)) = [task_plain] ∧
  todoReducer
    (todoReducer (todoReducer [task_plain] (add task_dated))
       (toggle task_dated.(id)))
    (remove task_dated.(id))
  = [task_plain].
Proof.
  apply (add_then_remove [task_plain] task_dated).
  apply (bool_decide_unpack (task_dated.(id) ∉ ids [task_plain])).
  vm_compute. exact I.
Defined.
